(** * demo1.py: text chunking and the ingestion / query pipeline

    A shallow embedding of [src/demo1.py].  Python strings are sequences of
    Unicode code points, so a string is a list of code points here; the
    integer [chunk_size] is an unbounded Python [int], hence a [Z].  The
    external collaborators (embedding model, vector store, file system) are
    oracles over an abstract world, and the script's control flow (sequencing,
    [try]/[except Exception], [exit]) is a small trace-and-error monad. *)

From Stdlib Require Import String Ascii.
From Stdlib Require Import List ZArith NArith Lia Bool.
From Stdlib Require Decimal DecimalNat.
Import ListNotations.
Local Open Scope Z_scope.

(* ================================================================== *)
(** ** Python strings *)

Module Str.

(** A code point. *)
Definition char := N.

(** A Python [str]. *)
Definition str := list char.

(** Source literals are ASCII; [lit] reads one as a [str]. *)
Definition lit (s : string) : str := map N_of_ascii (list_ascii_of_string s).
Arguments lit : simpl never.

Definition sp : char := 32%N.

(** [len(s)], as the Python integer it is. *)
Definition len (s : str) : Z := Z.of_nat (length s).

(** [bool(s)]: a string is truthy when it is not empty. *)
Definition truthy (s : str) : bool :=
  match s with [] => false | _ :: _ => true end.

(** [str.isspace] on one code point (CPython's [Py_UNICODE_ISSPACE]): the
    ASCII controls 0x09-0x0D and 0x1C-0x1F, the space, and the Unicode
    characters of bidirectional type WS, B or S or of category Zs. *)
Definition isspace (c : char) : bool :=
  ((9 <=? c) && (c <=? 13) || (28 <=? c) && (c <=? 32)
   || (c =? 133) || (c =? 160) || (c =? 5760)
   || (8192 <=? c) && (c <=? 8202)
   || (c =? 8232) || (c =? 8233) || (c =? 8239) || (c =? 8287)
   || (c =? 12288))%N.

(** [s.split(sep)] for a one-character separator: [k] occurrences of the
    separator give [k + 1] pieces, empty pieces included. *)
Fixpoint split (sep : char) (s : str) : list str :=
  match s with
  | [] => [[]]
  | c :: s' =>
      if (c =? sep)%N then [] :: split sep s'
      else match split sep s' with
           | w :: ws => (c :: w) :: ws
           | [] => [[c]]
           end
  end.

(** [s.lstrip()], [s.rstrip()] and [s.strip()] without argument. *)
Fixpoint lstrip (s : str) : str :=
  match s with
  | [] => []
  | c :: s' => if isspace c then lstrip s' else s
  end.

Definition rstrip (s : str) : str := rev (lstrip (rev s)).

Definition strip (s : str) : str := rstrip (lstrip s).

(** [sep.join(l)]. *)
Fixpoint join (sep : str) (l : list str) : str :=
  match l with
  | [] => []
  | [x] => x
  | x :: l' => x ++ sep ++ join sep l'
  end.

(** Whether a word that ends just before [s] ends there: [s] is empty or
    starts with whitespace. *)
Definition word_end (s : str) : bool :=
  match s with [] => true | d :: _ => isspace d end.

(** [s.split()] without argument: the maximal runs of non-whitespace
    characters, in order. *)
Fixpoint words (s : str) : list str :=
  match s with
  | [] => []
  | c :: s' =>
      if isspace c then words s'
      else if word_end s' then [c] :: words s'
      else match words s' with
           | w :: ws => (c :: w) :: ws
           | [] => [[c]]
           end
  end.

(** [str(n)] for a non-negative integer: its decimal digits. *)
Fixpoint digits (u : Decimal.uint) : str :=
  match u with
  | Decimal.Nil => []
  | Decimal.D0 u => 48%N :: digits u
  | Decimal.D1 u => 49%N :: digits u
  | Decimal.D2 u => 50%N :: digits u
  | Decimal.D3 u => 51%N :: digits u
  | Decimal.D4 u => 52%N :: digits u
  | Decimal.D5 u => 53%N :: digits u
  | Decimal.D6 u => 54%N :: digits u
  | Decimal.D7 u => 55%N :: digits u
  | Decimal.D8 u => 56%N :: digits u
  | Decimal.D9 u => 57%N :: digits u
  end.

Definition of_nat (n : nat) : str := digits (Nat.to_uint n).

End Str.

Import Str.

(* ================================================================== *)
(** ** The chunker (demo1.py, lines 49-64) *)

(** One iteration of [for word in words]; the state is [(chunks, chunk)]. *)
Definition chunk_step (chunk_size : Z) (st : list str * str) (word : str)
  : list str * str :=
  let '(chunks, chunk) := st in
  if len chunk + len word <=? chunk_size
  then (chunks, chunk ++ word ++ [sp])
  else (chunks ++ [strip chunk], word ++ [sp]).

Definition chunk_text (text : str) (chunk_size : Z) : list str :=
  let words := split sp text in
  let '(chunks, chunk) := fold_left (chunk_step chunk_size) words ([], []) in
  if truthy chunk then chunks ++ [strip chunk] else chunks.

(** The default value of the [chunk_size] parameter. *)
Definition default_chunk_size : Z := 512.


(** The words of each chunk, as the loop groups them: the same loop with the
    buffer kept as the list of the words in it.  [buffer g] is the buffer
    the source holds for the group [g] and [render g] the chunk it emits. *)
Definition buffer (g : list str) : str := concat (map (fun w => w ++ [sp]) g).

Definition render (g : list str) : str := strip (buffer g).

Definition group_step (chunk_size : Z) (st : list (list str) * list str)
  (word : str) : list (list str) * list str :=
  let '(gs, g) := st in
  if len (buffer g) + len word <=? chunk_size
  then (gs, g ++ [word])
  else (gs ++ [g], [word]).

Definition chunk_groups (text : str) (chunk_size : Z) : list (list str) :=
  let '(gs, g) := fold_left (group_step chunk_size) (split sp text) ([], []) in
  if truthy (buffer g) then gs ++ [g] else gs.

(** A word with at least one character that is not whitespace. *)
Definition visible (w : str) : bool := existsb (fun c => negb (isspace c)) w.

(** A string that neither starts nor ends with whitespace. *)
Definition trimmed (s : str) : Prop :=
  (forall c, hd_error s = Some c -> isspace c = false) /\
  (forall c, hd_error (rev s) = Some c -> isspace c = false).

(** The chunks the loop leaves behind: lines 61-64. *)
Definition finish (st : list str * str) : list str :=
  let '(chunks, chunk) := st in
  if truthy chunk then chunks ++ [strip chunk] else chunks.

(** A group that is one word longer than the limit. *)
Definition lone_oversized (chunk_size : Z) (g : list str) : Prop :=
  exists w, g = [w] /\ chunk_size < len w.

(** What holds of a group once the loop has closed it: its chunk fits, or
    it is one oversized word; and an oversized word has no company. *)
Definition closed_ok (chunk_size : Z) (g : list str) : Prop :=
  (len (render g) <= chunk_size \/ lone_oversized chunk_size g) /\
  (forall w, In w g -> chunk_size < len w -> g = [w]).

(** What holds of the group the loop is filling. *)
Definition open_ok (chunk_size : Z) (g : list str) : Prop :=
  (length g <= 1)%nat \/ len (buffer g) <= chunk_size + 1.

(** Where one group ends and the next begins, the next word did not fit
    behind the buffer. *)
Definition tight (chunk_size : Z) (L : list (list str)) : Prop :=
  forall pre a w b post,
    L = pre ++ a :: (w :: b) :: post -> chunk_size < len (buffer a) + len w.

(* ================================================================== *)
(** ** The pipeline (demo1.py, lines 10-33 and 66-147) *)

(** What [str(e)] gives for a caught exception. *)
Definition exn := str.

(** The result of a call into a library or service: a value, or an
    exception of class [Exception]. *)
Inductive res (A : Type) : Type :=
| Ok (a : A)
| Err (e : exn).
Arguments Ok {A} a.
Arguments Err {A} e.

(** Equality of strings, [==]. *)
Fixpoint eqb (a b : str) : bool :=
  match a, b with
  | [], [] => true
  | x :: a', y :: b' => (x =? y)%N && eqb a' b'
  | _, _ => false
  end.

(** [enumerate(l)]. *)
Definition enumerate {A} (l : list A) : list (nat * A) :=
  combine (seq 0 (length l)) l.

(** [f"{x}"] for a value read with [os.getenv]. *)
Definition str_of_env (x : option str) : str :=
  match x with Some s => s | None => lit "None" end.

Section Pipeline.

(** The number type of embeddings and scores. *)
Variable float : Type.

(** The state of everything outside the script: the vector store, the
    model host, the file system. *)
Variable World : Type.

(** The dictionary passed to [index.upsert]. *)
Record vector : Type := mk_vector {
  id : str;
  values : list float;
  metadata_text : str
}.

(** An element of [query_response['matches']]. *)
Record scored : Type := mk_scored {
  score : float;
  text_of : str
}.

(** The effects of the script, in the order they happen. *)
Inductive event : Type :=
| Print (line : str)
| ListIndexes
| CreateIndex (name : option str) (dimension : Z) (metric cloud : str)
    (region : option str)
| Index (name : option str)
| Upsert (vectors : list vector)
| Query (v : list float) (top_k : Z) (include_metadata : bool)
| Listdir (path : str)
| OpenRead (path : str)
| Embed (text : str)
| Login (token : str)
| LoadTokenizer (model : str)
| LoadModel (model : str).

(** The collaborators the script calls.  Each one may change the world and
    either returns or raises. *)
Record externals : Type := mk_externals {
  (* os.getenv, lines 10-13 *)
  environment : option str;
  index_name : option str;
  hf_token : option str;
  (* the Pinecone client *)
  list_indexes_names : World -> res (list str) * World;
  create_index : option str -> Z -> str -> str -> option str ->
                 World -> res unit * World;
  pc_Index : option str -> World -> res unit * World;
  index_upsert : list vector -> World -> res unit * World;
  index_query : list float -> Z -> bool -> World -> res (list scored) * World;
  (* huggingface_hub and transformers *)
  login : str -> World -> res unit * World;
  from_pretrained_tokenizer : str -> World -> res unit * World;
  from_pretrained_model : str -> World -> res unit * World;
  (* tokenizer, forward pass, mean over tokens, tolist: lines 67-73 *)
  embed : str -> World -> res (list float) * World;
  (* os and pathlib *)
  os_listdir : str -> World -> res (list str) * World;
  open_read : str -> World -> res str * World;
  os_path_join : str -> str -> str;
  path_suffix : str -> str;
  (* f"{x}" of a score *)
  str_of_float : float -> str
}.

Variable X : externals.

(** How a statement ends: normally, with an exception of class
    [Exception], or with [SystemExit]. *)
Inductive outcome (A : Type) : Type :=
| Ret (a : A)
| Raise (e : exn)
| Exit (status : Z).
Arguments Ret {A} a.
Arguments Raise {A} e.
Arguments Exit {A} status.

Record run (A : Type) : Type := mk_run {
  trace : list event;
  final : World;
  result : outcome A
}.
Arguments mk_run {A} trace final result.
Arguments trace {A} r.
Arguments final {A} r.
Arguments result {A} r.

(** A statement: from the world before it, the effects it has, the world
    after it and how it ends. *)
Definition M (A : Type) : Type := World -> run A.

Definition ret {A} (a : A) : M A := fun w => mk_run [] w (Ret a).

Definition bind {A B} (m : M A) (f : A -> M B) : M B := fun w =>
  let r := m w in
  match result r with
  | Ret a => let r' := f a (final r) in
             mk_run (trace r ++ trace r') (final r') (result r')
  | Raise e => mk_run (trace r) (final r) (Raise e)
  | Exit s => mk_run (trace r) (final r) (Exit s)
  end.

(** [try: m except Exception as e: h e]; [SystemExit] passes through. *)
Definition try_except {A} (m : M A) (h : exn -> M A) : M A := fun w =>
  let r := m w in
  match result r with
  | Raise e => let r' := h e (final r) in
               mk_run (trace r ++ trace r') (final r') (result r')
  | _ => r
  end.

Definition raise {A} (e : exn) : M A := fun w => mk_run [] w (Raise e).

Definition exit {A} (status : Z) : M A := fun w => mk_run [] w (Exit status).

Definition print (line : str) : M unit := fun w => mk_run [Print line] w (Ret tt).

(** A call of a collaborator, recorded as [ev]. *)
Definition call {A} (ev : event) (f : World -> res A * World) : M A := fun w =>
  let '(r, w') := f w in
  mk_run [ev] w' (match r with Ok a => Ret a | Err e => Raise e end).

Notation "x <- m ;; k" := (bind m (fun x => k))
  (at level 61, m at next level, right associativity).
Notation "m ;; k" := (bind m (fun _ => k))
  (at level 61, right associativity).

(** [for x in l: body x]. *)
Fixpoint for_each {A} (l : list A) (body : A -> M unit) : M unit :=
  match l with
  | [] => ret tt
  | x :: l' => body x ;; for_each l' body
  end.

(** Lines 67-73. *)
Definition get_embeddings (text : str) : M (list float) :=
  call (Embed text) (embed X text).

(** Lines 76-87. *)
Definition store_in_pinecone (embeddings : list float) (chunk id : str)
  : M unit :=
  try_except
    (call (Index (index_name X)) (pc_Index X (index_name X)) ;;
     let vector := mk_vector id embeddings chunk in
     call (Upsert [vector]) (index_upsert X [vector]) ;;
     print (lit "Stored chunk ID " ++ id ++ lit " in Pinecone."))
    (fun e => print (lit "Error storing data in Pinecone: " ++ e)).

(** The body of the loop of lines 92-94. *)
Definition embed_and_store (file_name : str) (ic : nat * str) : M unit :=
  let '(i, chunk) := ic in
  embeddings <- get_embeddings chunk ;;
  store_in_pinecone embeddings chunk
    (file_name ++ lit "-chunk-" ++ of_nat (i + 1)%nat).

(** Lines 90-94. *)
Definition process_text (text file_name : str) : M unit :=
  let chunks := chunk_text text default_chunk_size in
  for_each (enumerate chunks) (embed_and_store file_name).

(** The body of the loop of lines 102-111. *)
Definition process_entry (directory_path file : str) : M unit :=
  let file_path := os_path_join X directory_path file in
  if eqb (path_suffix X file_path) (lit ".txt") then
    try_except
      (data <- call (OpenRead file_path) (open_read X file_path) ;;
       print (lit "Processing file: " ++ file) ;;
       process_text data file)
      (fun e => print (lit "Error reading file: " ++ e))
  else ret tt.

(** Lines 97-113. *)
Definition process_directory (directory_path : str) : M unit :=
  try_except
    (files <- call (Listdir directory_path) (os_listdir X directory_path) ;;
     for_each files (process_entry directory_path))
    (fun e => print (lit "Error reading directory: " ++ e)).

(** Lines 116-139. *)
Definition search_in_pinecone (query : str) : M unit :=
  embeddings <- get_embeddings query ;;
  if Z.of_nat (length embeddings) =? 0 then
    print (lit "Failed to get embeddings for the query.")
  else
    try_except
      (call (Index (index_name X)) (pc_Index X (index_name X)) ;;
       matches <- call (Query embeddings 4 true)
                       (index_query X embeddings 4 true) ;;
       match matches with
       | _ :: _ =>
           print (lit "Search Results:") ;;
           for_each (enumerate matches) (fun '(idx, m) =>
             print (of_nat (idx + 1)%nat ++ lit ". Score: "
                    ++ str_of_float X (score m)) ;;
             print (lit "Text: " ++ text_of m) ;;
             print (lit "--------------------------------"))
       | [] => print (lit "No similar results found.")
       end)
      (fun e => print (lit "Error searching Pinecone: " ++ e)).

(** [index_name not in pc.list_indexes().names()]. *)
Definition not_in (name : option str) (names : list str) : bool :=
  match name with
  | Some n => negb (existsb (eqb n) names)
  | None => true
  end.

(** Lines 19-33: the index is created when it is missing; a failure ends
    the process. *)
Definition provision : M unit :=
  try_except
    (names <- call ListIndexes (list_indexes_names X) ;;
     if not_in (index_name X) names then
       call (CreateIndex (index_name X) 4096 (lit "cosine") (lit "aws")
               (environment X))
            (create_index X (index_name X) 4096 (lit "cosine") (lit "aws")
               (environment X)) ;;
       print (lit "Created Pinecone index '" ++ str_of_env (index_name X)
              ++ lit "' with dimension 4096.")
     else ret tt)
    (fun e => print (lit "Error creating Pinecone index: " ++ e) ;; exit 1).

Definition model_id : str := lit "meta-llama/Meta-Llama-3-70B-Instruct".

(** Lines 38-46: authentication and the loading of tokenizer and model. *)
Definition load : M unit :=
  match hf_token X with
  | Some (c :: t) => call (Login (c :: t)) (login X (c :: t))
  | _ => raise (lit "HUGGINGFACE_API_TOKEN environment variable not set")
  end ;;
  call (LoadTokenizer model_id) (from_pretrained_tokenizer X model_id) ;;
  call (LoadModel model_id) (from_pretrained_model X model_id).

(** Lines 142-147. *)
Definition directory_path : str := lit "./documents".

Definition user_query : str :=
  lit "CAN YOU GIVE ME INFORMATION ABOUT IITJ,JODHPUR?".

Definition ingest_and_search : M unit :=
  process_directory directory_path ;;
  search_in_pinecone user_query.

(** The script from line 19 on. *)
Definition script : M unit :=
  provision ;; load ;; ingest_and_search.

(** What a trace shows of the store and of the files. *)
Definition upserted (t : list event) : list vector :=
  flat_map (fun ev => match ev with Upsert vs => vs | _ => [] end) t.

Definition opened (t : list event) : list str :=
  flat_map (fun ev => match ev with OpenRead p => [p] | _ => [] end) t.

Definition embedded (t : list event) : list str :=
  flat_map (fun ev => match ev with Embed s => [s] | _ => [] end) t.

(** The lines [search_in_pinecone] prints for the matches of a query
    (lines 130-137). *)
Definition result_lines (matches : list scored) : list str :=
  match matches with
  | [] => [lit "No similar results found."]
  | _ :: _ =>
      lit "Search Results:"
      :: flat_map (fun im : nat * scored =>
                     [of_nat (fst im + 1)%nat ++ lit ". Score: "
                        ++ str_of_float X (score (snd im));
                      lit "Text: " ++ text_of (snd im);
                      lit "--------------------------------"])
                  (enumerate matches)
  end.

(** The calls [search_in_pinecone] may make. *)
Definition search_event (ev : event) : Prop :=
  match ev with
  | Embed _ | Index _ | Print _ => True
  | Query _ top_k include_metadata => top_k = 4 /\ include_metadata = true
  | _ => False
  end.

(** Whether [process_directory] reads the entry [file]. *)
Definition is_txt (directory_path file : str) : bool :=
  eqb (path_suffix X (os_path_join X directory_path file)) (lit ".txt").

End Pipeline.

Arguments environment {float World} e.
Arguments index_name {float World} e.
Arguments hf_token {float World} e.
Arguments list_indexes_names {float World} e.
Arguments create_index {float World} e.
Arguments pc_Index {float World} e.
Arguments index_upsert {float World} e.
Arguments index_query {float World} e.
Arguments login {float World} e.
Arguments from_pretrained_tokenizer {float World} e.
Arguments from_pretrained_model {float World} e.
Arguments embed {float World} e.
Arguments os_listdir {float World} e.
Arguments open_read {float World} e.
Arguments os_path_join {float World} e.
Arguments path_suffix {float World} e.
Arguments str_of_float {float World} e.
Arguments mk_vector {float} id values metadata_text.
Arguments score {float} s.
Arguments text_of {float} s.
Arguments M float World A : clear implicits.
Arguments embed_and_store {float World} X file_name ic w.
Arguments id {float} v.
Arguments values {float} v.
Arguments metadata_text {float} v.
Arguments Print {float} line.
Arguments ListIndexes {float}.
Arguments CreateIndex {float} name dimension metric cloud region.
Arguments Index {float} name.
Arguments Upsert {float} vectors.
Arguments Query {float} v top_k include_metadata.
Arguments Listdir {float} path.
Arguments OpenRead {float} path.
Arguments Embed {float} text.
Arguments Login {float} token.
Arguments LoadTokenizer {float} model.
Arguments LoadModel {float} model.
Arguments Ret {A} a.
Arguments Raise {A} e.
Arguments Exit {A} status.
Arguments mk_run {float World A} trace final result.
Arguments trace {float World A} r.
Arguments final {float World A} r.
Arguments result {float World A} r.
Arguments ret {float World A} a w.
Arguments bind {float World A B} m f w.
Arguments try_except {float World A} m h w.
Arguments raise {float World A} e w.
Arguments exit {float World A} status w.
Arguments print {float World} line w.
Arguments call {float World A} ev f w.
Arguments for_each {float World A} l body w.
Arguments get_embeddings {float World} X text w.
Arguments store_in_pinecone {float World} X embeddings chunk id w.
Arguments process_text {float World} X text file_name w.
Arguments process_entry {float World} X directory_path file w.
Arguments process_directory {float World} X directory_path w.
Arguments search_in_pinecone {float World} X query w.
Arguments provision {float World} X w.
Arguments load {float World} X w.
Arguments ingest_and_search {float World} X w.
Arguments script {float World} X w.
Arguments upserted {float} t.
Arguments opened {float} t.
Arguments is_txt {float World} X directory_path file.
Arguments embedded {float} t.
Arguments mk_scored {float} score text_of.
Arguments result_lines {float World} X matches.
Arguments search_event {float} ev.

(** The same collaborators with another embedder, index handle, query,
    or token. *)
Definition with_embed {float World} (X : externals float World)
    (f : str -> World -> res (list float) * World) : externals float World :=
  mk_externals float World (environment X) (index_name X) (hf_token X)
    (list_indexes_names X) (create_index X) (pc_Index X) (index_upsert X)
    (index_query X) (login X) (from_pretrained_tokenizer X)
    (from_pretrained_model X) f (os_listdir X) (open_read X)
    (os_path_join X) (path_suffix X) (str_of_float X).

Definition with_pc_Index {float World} (X : externals float World)
    (f : option str -> World -> res unit * World) : externals float World :=
  mk_externals float World (environment X) (index_name X) (hf_token X)
    (list_indexes_names X) (create_index X) f (index_upsert X)
    (index_query X) (login X) (from_pretrained_tokenizer X)
    (from_pretrained_model X) (embed X) (os_listdir X) (open_read X)
    (os_path_join X) (path_suffix X) (str_of_float X).

Definition with_index_query {float World} (X : externals float World)
    (f : list float -> Z -> bool -> World -> res (list (scored float)) * World)
    : externals float World :=
  mk_externals float World (environment X) (index_name X) (hf_token X)
    (list_indexes_names X) (create_index X) (pc_Index X) (index_upsert X)
    f (login X) (from_pretrained_tokenizer X)
    (from_pretrained_model X) (embed X) (os_listdir X) (open_read X)
    (os_path_join X) (path_suffix X) (str_of_float X).

Definition with_open_read {float World} (X : externals float World)
    (f : str -> World -> res str * World) : externals float World :=
  mk_externals float World (environment X) (index_name X) (hf_token X)
    (list_indexes_names X) (create_index X) (pc_Index X) (index_upsert X)
    (index_query X) (login X) (from_pretrained_tokenizer X)
    (from_pretrained_model X) (embed X) (os_listdir X) f
    (os_path_join X) (path_suffix X) (str_of_float X).

Definition with_hf_token {float World} (X : externals float World)
    (t : option str) : externals float World :=
  mk_externals float World (environment X) (index_name X) t
    (list_indexes_names X) (create_index X) (pc_Index X) (index_upsert X)
    (index_query X) (login X) (from_pretrained_tokenizer X)
    (from_pretrained_model X) (embed X) (os_listdir X) (open_read X)
    (os_path_join X) (path_suffix X) (str_of_float X).

(* ================================================================== *)
(** ** A small world to run the pipeline in *)

Module Demo.

(** The store holds named indexes and the vectors upserted so far; the
    documents directory holds named files. *)
Record world : Type := mk_world {
  indexes : list str;
  stored : list (vector Z);
  files : list (str * str);
  store_up : bool
}.

Definition down : exn := lit "connection refused".

Definition slash : char := 47%N.
Definition dot : char := 46%N.

(** [posixpath.join] of a directory without trailing slash and a name. *)
Definition join_path (a b : str) : str := a ++ [slash] ++ b.

(** [PurePath.suffix]: from the last dot of the last path component on,
    when that dot is neither its first nor its last character. *)
Definition suffix (p : str) : str :=
  let name := last (split slash p) [] in
  let parts := split dot name in
  let ext := last parts [] in
  let stem := removelast parts in
  match stem, ext with
  | [], _ => []
  | _, [] => []
  | [[]], _ => []
  | _, _ => dot :: ext
  end.

Fixpoint lookup (k : str) (l : list (str * str)) : option str :=
  match l with
  | [] => None
  | (k', v) :: l' => if eqb k k' then Some v else lookup k l'
  end.

Definition guarded {A} (w : world) (r : res A * world) : res A * world :=
  if store_up w then r else (Err down, w).

(** Collaborators over [world]; [emb] is the embedding function. *)
Definition ext (name : option str) (emb : str -> list Z) : externals Z world :=
  {| environment := Some (lit "us-east-1");
     index_name := name;
     hf_token := Some (lit "hf_token");
     list_indexes_names := fun w => guarded w (Ok (indexes w), w);
     create_index := fun n _ _ _ _ w =>
       match n with
       | Some n' => (Ok tt, mk_world (indexes w ++ [n']) (stored w) (files w)
                               (store_up w))
       | None => (Err (lit "name is required"), w)
       end;
     pc_Index := fun _ w => (Ok tt, w);
     index_upsert := fun vs w =>
       (Ok tt, mk_world (indexes w) (stored w ++ vs) (files w) (store_up w));
     index_query := fun _ _ _ w => (Ok [], w);
     login := fun _ w => (Ok tt, w);
     from_pretrained_tokenizer := fun _ w => (Ok tt, w);
     from_pretrained_model := fun _ w => (Ok tt, w);
     embed := fun s w => (Ok (emb s), w);
     os_listdir := fun d w =>
       if eqb d (lit "./documents") then (Ok (map fst (files w)), w)
       else (Err (lit "No such file or directory"), w);
     open_read := fun p w =>
       match lookup p (map (fun '(n, c) => (join_path (lit "./documents") n, c))
                         (files w)) with
       | Some c => (Ok c, w)
       | None => (Err (lit "No such file or directory"), w)
       end;
     os_path_join := join_path;
     path_suffix := suffix;
     str_of_float := fun z => of_nat (Z.to_nat z) |}.

(** An embedding with one number per character, and one that is always
    empty. *)
Definition codes (s : str) : list Z := map Z.of_N s.
Definition silent (s : str) : list Z := [].

Definition docs : list (str * str) :=
  [ (lit "notes.txt", lit "alpha beta");
    (lit "paper.pdf", lit "%PDF-1.4");
    (lit "README", lit "read me") ].

(** A text of 1200 characters, which the default limit cuts in three. *)
Definition long_text : str := concat (repeat (lit "lorem ipsum ") 100).

Definition kb : option str := Some (lit "kb").

Definition w0 : world := mk_world [lit "kb"] [] docs true.
Definition w_missing : world := mk_world [] [] docs true.
Definition w_down : world := mk_world [] [] docs false.

(** Variants: an embedder that always raises, a store whose index handle
    cannot be had, a store that answers a query, a missing token. *)
Definition oom : exn := lit "CUDA out of memory".

Definition no_gpu : externals Z world :=
  with_embed (ext kb codes) (fun _ w => (Err oom, w)).

Definition store_down : externals Z world :=
  with_pc_Index (ext kb codes) (fun _ w => (Err down, w)).

Definition answering : externals Z world :=
  with_index_query (ext kb codes)
    (fun _ _ _ w => (Ok [mk_scored 9 (lit "alpha"); mk_scored 7 (lit "beta")], w)).

Definition no_token : externals Z world := with_hf_token (ext kb codes) None.

(** A file system whose documents do not change: what a file of the
    documents directory holds, and collaborators that read it. *)
Definition content (file : str) : str :=
  match lookup file docs with Some c => c | None => [] end.

Definition read_docs (path : str) : str :=
  match lookup path
          (map (fun '(n, c) => (join_path (lit "./documents") n, c)) docs) with
  | Some c => c
  | None => []
  end.

Definition readable : externals Z world :=
  with_open_read (ext kb codes) (fun p w => (Ok (read_docs p), w)).

End Demo.

(* ================================================================== *)
(** ** Facts about strings *)

Section StringFacts.

Lemma len_app (a b : str) : len (a ++ b) = len a + len b.
Proof. unfold len. rewrite length_app. lia. Qed.

Lemma len_nonneg (a : str) : 0 <= len a.
Proof. unfold len. lia. Qed.

Lemma eqb_eq (a b : str) : eqb a b = true <-> a = b.
Proof.
  revert b. induction a as [|x a IH]; intros [|y b]; simpl;
    try (split; [discriminate | discriminate]); try tauto.
  rewrite andb_true_iff, N.eqb_eq, IH. split.
  - intros [-> ->]. reflexivity.
  - intros E. injection E as -> ->. tauto.
Qed.

(** [lstrip] removes a prefix made of whitespace. *)
Lemma lstrip_prefix (s : str) :
  exists p, s = p ++ lstrip s /\ forallb isspace p = true.
Proof.
  induction s as [|c s [p [E Hp]]]; simpl.
  - exists []. split; reflexivity.
  - destruct (isspace c) eqn:Hc.
    + exists (c :: p). simpl. rewrite Hc, Hp. split; [f_equal; exact E | reflexivity].
    + exists []. split; reflexivity.
Qed.

Lemma lstrip_hd (s : str) c : hd_error (lstrip s) = Some c -> isspace c = false.
Proof.
  induction s as [|d s IH]; simpl; [discriminate|].
  destruct (isspace d) eqn:Hd; [exact IH|].
  simpl. intros [= <-]. exact Hd.
Qed.

Lemma lstrip_length (s : str) : (length (lstrip s) <= length s)%nat.
Proof.
  induction s as [|c s IH]; simpl; [lia|].
  destruct (isspace c); simpl; lia.
Qed.

Lemma lstrip_spaces (p : str) : forallb isspace p = true -> lstrip p = [].
Proof.
  induction p as [|c p IH]; simpl; [reflexivity|].
  rewrite andb_true_iff. intros [-> Hp]. exact (IH Hp).
Qed.

Lemma lstrip_app (a b : str) :
  lstrip (a ++ b) = match lstrip a with [] => lstrip b | _ :: _ => lstrip a ++ b end.
Proof.
  induction a as [|c a IH]; simpl.
  - reflexivity.
  - destruct (isspace c); [exact IH | reflexivity].
Qed.

(** [rstrip] removes a suffix made of whitespace. *)
Lemma rstrip_suffix (s : str) :
  exists q, s = rstrip s ++ q /\ forallb isspace q = true.
Proof.
  unfold rstrip. destruct (lstrip_prefix (rev s)) as [p [E Hp]].
  exists (rev p). split.
  - rewrite <- rev_app_distr, <- E, rev_involutive. reflexivity.
  - rewrite forallb_forall in *. intros c Hc. apply Hp, in_rev, Hc.
Qed.

Lemma rstrip_snoc (s : str) c : isspace c = true -> rstrip (s ++ [c]) = rstrip s.
Proof.
  intros Hc. unfold rstrip. rewrite rev_app_distr. simpl. rewrite Hc. reflexivity.
Qed.

Lemma rstrip_length (s : str) : (length (rstrip s) <= length s)%nat.
Proof.
  unfold rstrip. rewrite length_rev.
  pose proof (lstrip_length (rev s)) as H. rewrite length_rev in H. exact H.
Qed.

(** A trailing whitespace character does not survive [strip]. *)
Lemma strip_snoc (s : str) c : isspace c = true -> strip (s ++ [c]) = strip s.
Proof.
  intros Hc. unfold strip. rewrite lstrip_app.
  destruct (lstrip s) as [|d t] eqn:E.
  - simpl. rewrite Hc. reflexivity.
  - apply rstrip_snoc, Hc.
Qed.

Lemma strip_len (s : str) : len (strip s) <= len s.
Proof.
  unfold strip, len.
  pose proof (rstrip_length (lstrip s)). pose proof (lstrip_length s). lia.
Qed.

Lemma isspace_sp : isspace sp = true.
Proof. reflexivity. Qed.

Lemma strip_trimmed (s : str) : trimmed (strip s).
Proof.
  unfold trimmed, strip. split; intros c Hc.
  - destruct (rstrip_suffix (lstrip s)) as [q [E _]].
    apply (lstrip_hd s). rewrite E.
    destruct (rstrip (lstrip s)); [discriminate | exact Hc].
  - unfold rstrip in Hc. rewrite rev_involutive in Hc.
    exact (lstrip_hd _ _ Hc).
Qed.

(** [strip] leaves nothing exactly when there is nothing to see. *)
Lemma lstrip_nil (s : str) : lstrip s = [] -> visible s = false.
Proof.
  induction s as [|c s IH]; simpl; [reflexivity|].
  destruct (isspace c); simpl; [exact IH | discriminate].
Qed.

Lemma visible_app (a b : str) : visible (a ++ b) = visible a || visible b.
Proof. apply existsb_app. Qed.

Lemma visible_rev (a : str) : visible (rev a) = visible a.
Proof.
  unfold visible. destruct (existsb _ a) eqn:E.
  - apply existsb_exists in E as [c [Hin Hc]].
    apply existsb_exists. exists c. split; [apply in_rev; rewrite rev_involutive|]; assumption.
  - destruct (existsb _ (rev a)) eqn:E'; [|reflexivity].
    apply existsb_exists in E' as [c [Hin Hc]].
    rewrite <- E. symmetry. apply existsb_exists. exists c.
    split; [apply in_rev|]; assumption.
Qed.

Lemma strip_nil (s : str) : strip s = [] -> visible s = false.
Proof.
  unfold strip, rstrip. intros H.
  apply (f_equal (@rev char)) in H. rewrite rev_involutive in H. simpl in H.
  apply lstrip_nil in H. rewrite visible_rev in H.
  destruct (lstrip_prefix s) as [p [E Hp]].
  rewrite E, visible_app, H, orb_false_r.
  unfold visible. apply not_true_is_false. intros C.
  apply existsb_exists in C as [c [Hin Hc]].
  rewrite forallb_forall in Hp. rewrite (Hp c Hin) in Hc. discriminate.
Qed.

End StringFacts.

(* ================================================================== *)
(** ** Splitting on whitespace, splitting on a character *)

Section SplitFacts.

Lemma words_spaces (p : str) : forallb isspace p = true -> words p = [].
Proof.
  induction p as [|c p IH]; simpl; [reflexivity|].
  rewrite andb_true_iff. intros [-> Hp]. exact (IH Hp).
Qed.

Lemma words_cons_visible c (s : str) : isspace c = false -> words (c :: s) <> [].
Proof.
  intros Hc. simpl. rewrite Hc.
  destruct (word_end s); [discriminate|].
  destruct (words s); discriminate.
Qed.

Lemma word_end_app (a b : str) d :
  isspace d = true -> word_end (a ++ d :: b) = word_end a.
Proof. intros Hd. destruct a; simpl; [exact Hd | reflexivity]. Qed.

(** Whitespace between two strings separates their words. *)
Lemma words_app_space (a b : str) d :
  isspace d = true -> words (a ++ d :: b) = words a ++ words b.
Proof.
  intros Hd. induction a as [|c a IH].
  - simpl. rewrite Hd. reflexivity.
  - change ((c :: a) ++ d :: b) with (c :: (a ++ d :: b)).
    cbn [words]. destruct (isspace c) eqn:Hc; [exact IH|].
    rewrite (word_end_app a b d Hd), IH.
    destruct a as [|e a'].
    + reflexivity.
    + cbn [word_end]. destruct (isspace e) eqn:He; [reflexivity|].
      pose proof (words_cons_visible e a' He) as Hne.
      destruct (words (e :: a')); [contradiction | reflexivity].
Qed.

Lemma words_app_spaces_l (p s : str) :
  forallb isspace p = true -> words (p ++ s) = words s.
Proof.
  induction p as [|c p IH]; simpl; [reflexivity|].
  rewrite andb_true_iff. intros [-> Hp]. exact (IH Hp).
Qed.

Lemma words_app_spaces_r (s q : str) :
  forallb isspace q = true -> words (s ++ q) = words s.
Proof.
  destruct q as [|d q]; [rewrite app_nil_r; reflexivity|].
  intros H. simpl in H. apply andb_true_iff in H as [Hd Hq].
  rewrite (words_app_space s q d Hd), (words_spaces q Hq). apply app_nil_r.
Qed.

Lemma words_strip (s : str) : words (strip s) = words s.
Proof.
  unfold strip.
  destruct (lstrip_prefix s) as [p [Ep Hp]].
  destruct (rstrip_suffix (lstrip s)) as [q [Eq Hq]].
  rewrite Ep at 2. rewrite (words_app_spaces_l p _ Hp).
  rewrite Eq at 2. rewrite (words_app_spaces_r _ q Hq). reflexivity.
Qed.

Lemma words_join (l : list str) :
  words (join [sp] l) = concat (map words l).
Proof.
  induction l as [|x l IH]; [reflexivity|].
  destruct l as [|y l].
  - simpl. rewrite app_nil_r. reflexivity.
  - change (join [sp] (x :: y :: l)) with (x ++ sp :: join [sp] (y :: l)).
    rewrite (words_app_space _ _ sp isspace_sp), IH. reflexivity.
Qed.

Lemma split_nonempty sep (s : str) : split sep s <> [].
Proof.
  destruct s as [|c s]; simpl; [discriminate|].
  destruct (c =? sep)%N; [discriminate|].
  destruct (split sep s); discriminate.
Qed.

(** Joining the pieces with the separator gives the string back. *)
Lemma join_split sep (s : str) : join [sep] (split sep s) = s.
Proof.
  induction s as [|c s IH]; [reflexivity|].
  cbn [split]. destruct (c =? sep)%N eqn:Hc.
  - apply N.eqb_eq in Hc. subst c.
    pose proof (split_nonempty sep s) as Hne.
    destruct (split sep s) as [|w ws]; [contradiction|].
    change (join [sep] ([] :: w :: ws)) with (sep :: join [sep] (w :: ws)).
    rewrite IH. reflexivity.
  - pose proof (split_nonempty sep s) as Hne.
    destruct (split sep s) as [|w ws]; [contradiction|].
    destruct ws as [|y ws].
    + simpl in *. rewrite IH. reflexivity.
    + change (join [sep] ((c :: w) :: y :: ws))
        with (c :: join [sep] (w :: y :: ws)).
      rewrite IH. reflexivity.
Qed.

Lemma words_of_split (s : str) : words s = concat (map words (split sp s)).
Proof. rewrite <- words_join, join_split. reflexivity. Qed.

End SplitFacts.

(* ================================================================== *)
(** ** The loop of [chunk_text] and the groups it forms *)

Section ChunkLoop.

Variable n : Z.

Lemma buffer_snoc (g : list str) w : buffer (g ++ [w]) = buffer g ++ w ++ [sp].
Proof.
  unfold buffer. rewrite map_app, concat_app. simpl.
  rewrite app_nil_r. reflexivity.
Qed.

Lemma buffer_one w : buffer [w] = w ++ [sp].
Proof. unfold buffer. simpl. apply app_nil_r. Qed.

Lemma buffer_in (g : list str) w : In w g -> len w + 1 <= len (buffer g).
Proof.
  induction g as [|x g IH]; [contradiction|].
  unfold buffer in *. simpl. rewrite !len_app. intros [-> | Hin].
  - pose proof (len_nonneg (concat (map (fun w => w ++ [sp]) g))).
    change (len [sp]) with 1. lia.
  - specialize (IH Hin). pose proof (len_nonneg x). change (len [sp]) with 1. lia.
Qed.

Lemma buffer_ends (g : list str) : g <> [] -> exists b, buffer g = b ++ [sp].
Proof.
  intros Hg. destruct (exists_last Hg) as [g' [w ->]].
  exists (buffer g' ++ w). rewrite buffer_snoc, app_assoc. reflexivity.
Qed.

Lemma buffer_truthy (g : list str) :
  truthy (buffer g) = match g with [] => false | _ :: _ => true end.
Proof.
  destruct g as [|w g]; [reflexivity|].
  unfold buffer. simpl. destruct w; reflexivity.
Qed.

Lemma render_len (g : list str) : g <> [] -> len (render g) <= len (buffer g) - 1.
Proof.
  intros Hg. destruct (buffer_ends g Hg) as [b E].
  unfold render. rewrite E, (strip_snoc b sp isspace_sp), len_app.
  pose proof (strip_len b). change (len [sp]) with 1. lia.
Qed.

Lemma render_one w : render [w] = strip (w ++ [sp]).
Proof. unfold render. rewrite buffer_one. reflexivity. Qed.

Lemma render_visible (g : list str) w :
  In w g -> visible w = true -> render g <> [].
Proof.
  intros Hin Hw E. apply strip_nil in E.
  assert (H : visible (buffer g) = true).
  { clear E. induction g as [|x g IH]; [contradiction|].
    unfold buffer in *. simpl. rewrite !visible_app.
    destruct Hin as [-> | Hin].
    - rewrite Hw. reflexivity.
    - rewrite (IH Hin). apply orb_true_r. }
  rewrite H in E. discriminate.
Qed.

(** The source's loop and the loop on groups go in step. *)
Lemma chunk_loop_groups (ws : list str) gs g :
  fold_left (chunk_step n) ws (map render gs, buffer g) =
  (map render (fst (fold_left (group_step n) ws (gs, g))),
   buffer (snd (fold_left (group_step n) ws (gs, g)))).
Proof.
  revert gs g. induction ws as [|w ws IH]; intros gs g; [reflexivity|].
  cbn [fold_left]. unfold chunk_step at 2, group_step at 2 4.
  destruct (len (buffer g) + len w <=? n).
  - rewrite <- buffer_snoc. apply IH.
  - rewrite <- buffer_one.
    change (map render gs ++ [strip (buffer g)]) with (map render gs ++ map render [g]).
    rewrite <- map_app. apply IH.
Qed.

Lemma chunk_text_finish (text : str) :
  chunk_text text n = finish (fold_left (chunk_step n) (split sp text) ([], [])).
Proof. reflexivity. Qed.

Lemma chunk_text_groups (text : str) :
  chunk_text text n = map render (chunk_groups text n).
Proof.
  unfold chunk_text, chunk_groups.
  change (@nil str, @nil char) with (map render [], buffer []).
  rewrite chunk_loop_groups.
  destruct (fold_left (group_step n) (split sp text) ([], [])) as [gs g]. simpl.
  destruct (truthy (buffer g)); [|reflexivity].
  rewrite map_app. reflexivity.
Qed.

(** No word is lost, added or moved. *)
Lemma group_loop_concat (ws : list str) gs g :
  concat (fst (fold_left (group_step n) ws (gs, g)))
  ++ snd (fold_left (group_step n) ws (gs, g)) = concat gs ++ g ++ ws.
Proof.
  revert gs g. induction ws as [|w ws IH]; intros gs g.
  - simpl. rewrite app_nil_r. reflexivity.
  - cbn [fold_left]. unfold group_step at 2 4.
    destruct (len (buffer g) + len w <=? n); rewrite IH.
    + rewrite <- app_assoc. reflexivity.
    + rewrite concat_app. simpl. rewrite app_nil_r, <- app_assoc. reflexivity.
Qed.

Lemma chunk_groups_concat (text : str) :
  concat (chunk_groups text n) = split sp text.
Proof.
  unfold chunk_groups.
  pose proof (group_loop_concat (split sp text) [] []) as H.
  destruct (fold_left (group_step n) (split sp text) ([], [])) as [gs g].
  simpl in H. rewrite buffer_truthy.
  destruct g as [|w g]; simpl.
  - rewrite app_nil_r in H. exact H.
  - rewrite concat_app. simpl. rewrite app_nil_r. exact H.
Qed.

(** Closing the group being filled. *)
Lemma open_closed (g : list str) : 0 <= n -> open_ok n g -> closed_ok n g.
Proof.
  intros Hn Hg. destruct g as [|w g].
  { split; [left; exact Hn | intros w []]. }
  destruct (Z_lt_le_dec (n + 1) (len (buffer (w :: g)))) as [Hbig | Hfit].
  - destruct Hg as [Hlen | Hlen]; [|lia].
    destruct g; [|simpl in Hlen; lia].
    rewrite buffer_one, len_app in Hbig. change (len [sp]) with 1 in Hbig.
    split; [right; exists w; split; [reflexivity | lia] | ].
    intros w' [<- | []] _. reflexivity.
  - split.
    + left. pose proof (render_len (w :: g)) as H.
      assert (w :: g <> []) as Hne by discriminate. specialize (H Hne). lia.
    + intros w' Hin Hw'. pose proof (buffer_in _ _ Hin). lia.
Qed.

Lemma group_loop_ok (ws : list str) gs g :
  0 <= n -> Forall (closed_ok n) gs -> open_ok n g ->
  Forall (closed_ok n) (fst (fold_left (group_step n) ws (gs, g))) /\
  open_ok n (snd (fold_left (group_step n) ws (gs, g))).
Proof.
  intros Hn. revert gs g. induction ws as [|w ws IH]; intros gs g Hgs Hg.
  - split; assumption.
  - cbn [fold_left]. unfold group_step at 2 4.
    destruct (len (buffer g) + len w <=? n) eqn:E.
    + apply IH; [assumption|]. right.
      apply Z.leb_le in E. rewrite buffer_snoc, !len_app.
      change (len [sp]) with 1. lia.
    + apply IH.
      * apply Forall_app. split; [assumption|].
        constructor; [apply open_closed; assumption | constructor].
      * left. simpl. lia.
Qed.

Lemma chunk_groups_ok (text : str) :
  0 <= n -> Forall (closed_ok n) (chunk_groups text n).
Proof.
  intros Hn. unfold chunk_groups.
  destruct (group_loop_ok (split sp text) [] [] Hn) as [Hgs Hg].
  { constructor. } { left. simpl. lia. }
  destruct (fold_left (group_step n) (split sp text) ([], [])) as [gs g].
  simpl in *. destruct (truthy (buffer g)); [|assumption].
  apply Forall_app. split; [assumption|].
  constructor; [apply open_closed; assumption | constructor].
Qed.

(** Only the first group can be empty. *)
Lemma group_loop_tail (ws : list str) gs g :
  Forall (fun g => g <> []) (tl (gs ++ [g])) ->
  Forall (fun g => g <> [])
    (tl (fst (fold_left (group_step n) ws (gs, g))
         ++ [snd (fold_left (group_step n) ws (gs, g))])).
Proof.
  revert gs g. induction ws as [|w ws IH]; intros gs g H; [exact H|].
  cbn [fold_left]. unfold group_step at 2 4.
  destruct (len (buffer g) + len w <=? n); apply IH.
  - destruct gs as [|g0 gs]; [constructor|].
    simpl in *. apply Forall_app in H as [H _].
    apply Forall_app. split; [assumption|].
    constructor; [destruct g; discriminate | constructor].
  - destruct gs as [|g0 gs]; simpl in *.
    + constructor; [discriminate | constructor].
    + apply Forall_app. split; [assumption|].
      constructor; [discriminate | constructor].
Qed.

Lemma chunk_groups_tail (text : str) :
  Forall (fun g => g <> []) (tl (chunk_groups text n)).
Proof.
  unfold chunk_groups.
  pose proof (group_loop_tail (split sp text) [] []) as H.
  destruct (fold_left (group_step n) (split sp text) ([], [])) as [gs g].
  simpl in H. assert (H0 : Forall (fun g : list str => g <> []) []) by constructor.
  specialize (H H0). destruct (truthy (buffer g)); [exact H|].
  destruct gs as [|g0 gs]; [constructor|].
  simpl in *. apply Forall_app in H as [H _]. exact H.
Qed.

(** Chunks already emitted stay where they are. *)
Lemma chunk_loop_prefix (ws : list str) chunks chunk :
  exists rest,
    finish (fold_left (chunk_step n) ws (chunks, chunk)) = chunks ++ rest.
Proof.
  revert chunks chunk. induction ws as [|w ws IH]; intros chunks chunk.
  - simpl. destruct (truthy chunk); eexists; [reflexivity|].
    symmetry. apply app_nil_r.
  - cbn [fold_left]. unfold chunk_step at 2.
    destruct (len chunk + len w <=? n); [apply IH|].
    destruct (IH (chunks ++ [strip chunk]) (w ++ [sp])) as [rest E].
    exists (strip chunk :: rest). rewrite <- app_assoc in E. exact E.
Qed.

(** A buffer that is already over the limit is emitted as it is. *)
Lemma chunk_loop_full (ws : list str) chunks chunk :
  chunk <> [] -> n < len chunk ->
  exists rest,
    finish (fold_left (chunk_step n) ws (chunks, chunk))
    = chunks ++ strip chunk :: rest.
Proof.
  intros Hne Hbig. destruct ws as [|w ws].
  - exists []. simpl. destruct chunk; [contradiction | reflexivity].
  - cbn [fold_left]. unfold chunk_step at 2.
    pose proof (len_nonneg w).
    destruct (len chunk + len w <=? n) eqn:E; [apply Z.leb_le in E; lia|].
    destruct (chunk_loop_prefix ws (chunks ++ [strip chunk]) (w ++ [sp])) as [rest R].
    exists rest. rewrite <- app_assoc in R. exact R.
Qed.

End ChunkLoop.

(* ================================================================== *)
(** ** The chunker: properties *)

Lemma words_buffer (g : list str) : words (buffer g) = concat (map words g).
Proof.
  induction g as [|w g IH]; [reflexivity|].
  change (buffer (w :: g)) with ((w ++ [sp]) ++ buffer g).
  rewrite <- app_assoc. simpl app.
  rewrite (words_app_space w (buffer g) sp isspace_sp), IH. reflexivity.
Qed.

Lemma concat_map_concat {A B} (f : A -> list B) (l : list (list A)) :
  concat (map (fun g => concat (map f g)) l) = concat (map f (concat l)).
Proof.
  induction l as [|g l IH]; [reflexivity|].
  simpl. rewrite map_app, concat_app, IH. reflexivity.
Qed.

(** C1, as amended: a word is a piece of the text between single spaces,
    as [text.split(' ')] gives them (it may be empty, and it may hold tabs
    or line breaks).  For every text and every limit that is not negative,
    the words of the text fall, in order, into groups, one per chunk; each
    chunk is the stripped buffer of its group and is at most the limit long
    unless its group is a single word longer than the limit; and a word
    longer than the limit is always the only word of its group.  In terms
    of the chunks alone: a chunk longer than the limit is one word of the
    text, itself longer than the limit, stripped. *)
Theorem chunk_text_length_bound (text : str) (chunk_size : Z) :
  0 <= chunk_size ->
  (exists gs : list (list str),
     concat gs = split sp text /\
     chunk_text text chunk_size = map render gs /\
     Forall (fun g =>
               (len (render g) <= chunk_size \/ lone_oversized chunk_size g) /\
               (forall w, In w g -> chunk_size < len w -> g = [w])) gs) /\
  (forall c, In c (chunk_text text chunk_size) ->
     len c <= chunk_size \/
     exists w, In w (split sp text) /\ chunk_size < len w /\
               c = strip (w ++ [sp])).
Proof.
  intros Hn.
  pose proof (chunk_groups_ok chunk_size text Hn) as Hok.
  pose proof (chunk_groups_concat chunk_size text) as Hcat.
  pose proof (chunk_text_groups chunk_size text) as Hmap.
  split.
  - exists (chunk_groups text chunk_size). repeat split; assumption.
  - intros c Hc. rewrite Hmap in Hc. apply in_map_iff in Hc as [g [<- Hg]].
    rewrite Forall_forall in Hok. destruct (Hok g Hg) as [[Hfit | [w [-> Hw]]] _].
    + left. exact Hfit.
    + right. exists w. repeat split.
      * rewrite <- Hcat. apply in_concat. exists [w]. split; [exact Hg | left; reflexivity].
      * exact Hw.
      * apply render_one.
Qed.

Lemma chunk_text_length_bound_witness :
  0 <= 3 /\
  (exists gs : list (list str),
     concat gs = split sp (lit "a bcdef gh") /\
     chunk_text (lit "a bcdef gh") 3 = map render gs /\
     Forall (fun g =>
               (len (render g) <= 3 \/ lone_oversized 3 g) /\
               (forall w, In w g -> 3 < len w -> g = [w])) gs) /\
  (forall c, In c (chunk_text (lit "a bcdef gh") 3) ->
     len c <= 3 \/
     exists w, In w (split sp (lit "a bcdef gh")) /\ 3 < len w /\
               c = strip (w ++ [sp])).
Proof.
  split; [lia|].
  apply (chunk_text_length_bound (lit "a bcdef gh") 3). lia.
Defined.

(** C1 as stated fails for a negative limit: with the text "a" and the
    limit -1 the result is the empty chunk followed by "a"; the empty chunk
    is longer than the limit and is no word of the text. *)
Lemma chunk_text_length_bound_negative_limit :
  ~ (forall c, In c (chunk_text (lit "a") (-1)) ->
       len c <= -1 \/
       exists w, In w (split sp (lit "a")) /\ -1 < len w /\
                 c = strip (w ++ [sp])).
Proof.
  intros H. destruct (H [] (or_introl eq_refl)) as [Hlen | [w [Hin [_ Hw]]]].
  - unfold len in Hlen. simpl in Hlen. lia.
  - destruct Hin as [<- | []]. vm_compute in Hw. discriminate.
Qed.

(** C2: for every text and every limit, the chunks joined with single
    spaces have the same words (maximal runs without whitespace, in order)
    as the text. *)
Theorem chunk_text_words (text : str) (chunk_size : Z) :
  words (join [sp] (chunk_text text chunk_size)) = words text.
Proof.
  rewrite words_join, chunk_text_groups, map_map.
  rewrite (map_ext (fun g => words (render g)) (fun g => concat (map words g))).
  - rewrite concat_map_concat, chunk_groups_concat. symmetry. apply words_of_split.
  - intros g. unfold render. rewrite words_strip. apply words_buffer.
Qed.

(** C3 as stated fails: the chunks of "a b c" under the limit 3 are not
    "a", "b", "c". *)
Lemma chunk_text_abc_not_three :
  chunk_text (lit "a b c") 3 <> [lit "a"; lit "b"; lit "c"].
Proof. vm_compute. discriminate. Qed.

(** C3, as amended: the chunks of "a b c" under the limit 3 are exactly
    "a b" and "c": the buffer "a " and the word "b" count 3 characters,
    which the limit allows, and "c" no longer fits. *)
Theorem chunk_text_abc :
  chunk_text (lit "a b c") 3 = [lit "a b"; lit "c"].
Proof. reflexivity. Qed.

(** C4, on the code: the empty text does not give an empty sequence.  It
    has one word, the empty one, so the buffer is a single space when the
    loop ends and the test of line 61 lets it through: the result is one
    empty chunk (after an empty first chunk when the limit is negative). *)
Theorem chunk_text_empty_text (chunk_size : Z) :
  chunk_text [] chunk_size = if 0 <=? chunk_size then [[]] else [[]; []].
Proof.
  unfold chunk_text. simpl. change (len []) with 0.
  destruct (0 <=? chunk_size); reflexivity.
Qed.

(** C9 as stated fails in its second half: the text "a " under the limit 1
    gives the chunks "a" and "", the empty one in second place. *)
Lemma chunk_text_empty_chunk_last :
  ~ (forall i, nth_error (chunk_text (lit "a ") 1) i = Some [] -> i = 0%nat).
Proof. intros H. specialize (H 1%nat eq_refl). discriminate. Qed.

(** C9, as amended: when the first word of the text is longer than the
    limit, the result starts with the empty chunk, followed by that word,
    stripped, alone; and when every word of the text (between single
    spaces) has a character that is not whitespace, an empty chunk occurs
    only as the first element. *)
Theorem chunk_text_oversized_first (text : str) (chunk_size : Z) :
  (forall w ws, split sp text = w :: ws -> chunk_size < len w ->
     exists rest, chunk_text text chunk_size = [] :: strip (w ++ [sp]) :: rest) /\
  (forallb visible (split sp text) = true ->
   forall i, nth_error (chunk_text text chunk_size) i = Some [] -> i = 0%nat).
Proof.
  split.
  - intros w ws Hsplit Hw. rewrite chunk_text_finish, Hsplit.
    cbn [fold_left]. unfold chunk_step at 2.
    pose proof (len_nonneg w).
    destruct (len [] + len w <=? chunk_size) eqn:E.
    { apply Z.leb_le in E. change (len []) with 0 in E. lia. }
    destruct (chunk_loop_full chunk_size ws ([] ++ [strip []]) (w ++ [sp]))
      as [rest R].
    + destruct w; discriminate.
    + rewrite len_app. change (len [sp]) with 1. lia.
    + exists rest. exact R.
  - intros Hvis [|i] Hi; [reflexivity|]. exfalso.
    rewrite chunk_text_groups in Hi.
    rewrite nth_error_map in Hi.
    destruct (nth_error (chunk_groups text chunk_size) (S i)) as [g|] eqn:Hg;
      [|discriminate].
    injection Hi as Hi.
    pose proof (chunk_groups_tail chunk_size text) as Htl.
    pose proof (chunk_groups_concat chunk_size text) as Hcat.
    destruct (chunk_groups text chunk_size) as [|g0 gs]; [discriminate|].
    simpl in Hg, Htl. apply nth_error_In in Hg.
    rewrite Forall_forall in Htl. specialize (Htl g Hg).
    destruct g as [|w g]; [contradiction|].
    apply (render_visible (w :: g) w); [left; reflexivity | | exact Hi].
    rewrite forallb_forall in Hvis. apply Hvis. rewrite <- Hcat.
    apply in_concat. exists (w :: g). split; [right; exact Hg | left; reflexivity].
Qed.

Lemma chunk_text_oversized_first_witness :
  (exists rest, chunk_text (lit "abcdef gh") 3
                = [] :: strip (lit "abcdef" ++ [sp]) :: rest) /\
  (forall i, nth_error (chunk_text (lit "abcdef gh") 3) i = Some [] -> i = 0%nat).
Proof.
  destruct (chunk_text_oversized_first (lit "abcdef gh") 3) as [A B].
  split.
  - apply (A (lit "abcdef") [lit "gh"]); reflexivity.
  - apply B. reflexivity.
Defined.

(** C10: for every text and every limit, no chunk starts or ends with a
    whitespace character. *)
Theorem chunk_text_trimmed (text : str) (chunk_size : Z) :
  Forall trimmed (chunk_text text chunk_size).
Proof.
  rewrite chunk_text_groups. apply Forall_map, Forall_forall.
  intros g _. apply strip_trimmed.
Qed.

(* ================================================================== *)
(** ** The pipeline: how statements compose *)

Section PipelineFacts.

Context {float World : Type}.
Variable X : externals float World.

Lemma upserted_app (t1 t2 : list (event float)) :
  upserted (t1 ++ t2) = upserted t1 ++ upserted t2.
Proof. apply flat_map_app. Qed.

Lemma opened_app (t1 t2 : list (event float)) :
  opened (t1 ++ t2) = opened t1 ++ opened t2.
Proof. apply flat_map_app. Qed.

(** A statement that returns, can be followed. *)
Lemma bind_ret {A B} (m : World -> run float World A)
    (f : A -> World -> run float World B) w a :
  result (m w) = Ret a ->
  bind m f w = mk_run (trace (m w) ++ trace (f a (final (m w))))
                      (final (f a (final (m w))))
                      (result (f a (final (m w)))).
Proof. intros H. unfold bind. rewrite H. reflexivity. Qed.

Lemma ret_bind {A} (f : unit -> World -> run float World A) w :
  bind (ret tt) f w = f tt w.
Proof. unfold bind, ret. simpl. destruct (f tt w). reflexivity. Qed.

(** [store_in_pinecone] always returns: its handler only prints. *)
Lemma store_in_pinecone_returns embeddings chunk i w :
  result (store_in_pinecone X embeddings chunk i w) = Ret tt.
Proof.
  unfold store_in_pinecone, try_except, bind, call, print.
  destruct (pc_Index X (index_name X) w) as [[[]|e] w1]; simpl; [|reflexivity].
  destruct (index_upsert X _ w1) as [[[]|e] w2]; reflexivity.
Qed.

Lemma store_in_pinecone_opened embeddings chunk i w :
  opened (trace (store_in_pinecone X embeddings chunk i w)) = [].
Proof.
  unfold store_in_pinecone, try_except, bind, call, print.
  destruct (pc_Index X (index_name X) w) as [[[]|e] w1]; simpl; [|reflexivity].
  destruct (index_upsert X _ w1) as [[[]|e] w2]; reflexivity.
Qed.

(** When the index handle is had, the vector reaches [index.upsert] just
    as it was built. *)
Lemma store_in_pinecone_upserted embeddings chunk i w w1 :
  pc_Index X (index_name X) w = (Ok tt, w1) ->
  upserted (trace (store_in_pinecone X embeddings chunk i w))
  = [mk_vector i embeddings chunk].
Proof.
  intros H. unfold store_in_pinecone, try_except, bind, call, print.
  rewrite H. simpl.
  destruct (index_upsert X _ w1) as [[[]|e] w2]; reflexivity.
Qed.

(** One iteration of the loop of [process_text], spelled out. *)
Lemma embed_and_store_run file_name i c w :
  embed_and_store X file_name (i, c) w
  = match embed X c w with
    | (Ok e, w1) =>
        let r := store_in_pinecone X e c
                   (file_name ++ lit "-chunk-" ++ of_nat (i + 1)%nat) w1 in
        mk_run (Embed c :: trace r) (final r) (Ret tt)
    | (Err e, w1) => mk_run [Embed c] w1 (Raise e)
    end.
Proof.
  unfold embed_and_store, bind, get_embeddings, call.
  destruct (embed X c w) as [[e|e] w1]; cbn [result trace final app];
    [rewrite store_in_pinecone_returns|]; reflexivity.
Qed.

Lemma embed_and_store_result file_name ic w s :
  result (embed_and_store X file_name ic w) <> Exit s.
Proof.
  destruct ic as [i c]. rewrite embed_and_store_run.
  destruct (embed X c w) as [[e|e] w1]; discriminate.
Qed.

Lemma embed_and_store_opened file_name ic w :
  opened (trace (embed_and_store X file_name ic w)) = [].
Proof.
  destruct ic as [i c]. rewrite embed_and_store_run.
  destruct (embed X c w) as [[e|e] w1]; [|reflexivity].
  cbn [trace]. change (opened (Embed c :: ?t)) with (opened t).
  apply store_in_pinecone_opened.
Qed.

(** A loop whose body neither exits nor opens a file does neither. *)
Lemma for_each_quiet {A} (body : A -> M float World unit) (l : list A) w :
  (forall x w s, result (body x w) <> Exit s) ->
  (forall x w, opened (trace (body x w)) = []) ->
  (forall s, result (for_each l body w) <> Exit s) /\
  opened (trace (for_each l body w)) = [].
Proof.
  intros Hres Hop. revert w. induction l as [|x l IH]; intros w.
  - split; [discriminate | reflexivity].
  - cbn [for_each]. unfold bind.
    pose proof (Hres x w) as Hx. pose proof (Hop x w) as Ho.
    destruct (body x w) as [t w1 [[]|e|s]]; simpl in *.
    + destruct (IH w1) as [IH1 IH2]. split; [exact IH1|].
      rewrite opened_app, Ho, IH2. reflexivity.
    + split; [discriminate | exact Ho].
    + exfalso. exact (Hx s eq_refl).
Qed.

Lemma process_text_quiet text file_name w :
  (forall s, result (process_text X text file_name w) <> Exit s) /\
  opened (trace (process_text X text file_name w)) = [].
Proof.
  unfold process_text. apply for_each_quiet.
  - intros. apply embed_and_store_result.
  - intros. apply embed_and_store_opened.
Qed.

(** What the loop of [process_text] sends to the store when the embedder
    and the index handle do not fail: one vector per chunk, with the id of
    its position, the chunk as text and the embedding untouched. *)
Lemma embed_and_store_loop (P : list float -> Prop) file_name
    (l : list (nat * str)) w :
  (forall s w, exists e w', embed X s w = (Ok e, w') /\ P e) ->
  (forall w, exists w', pc_Index X (index_name X) w = (Ok tt, w')) ->
  map (fun v => (id v, metadata_text v))
      (upserted (trace (for_each l (embed_and_store X file_name) w)))
  = map (fun ic => (file_name ++ lit "-chunk-" ++ of_nat (fst ic + 1)%nat, snd ic)) l
  /\ Forall (fun v => P (values v))
       (upserted (trace (for_each l (embed_and_store X file_name) w))).
Proof.
  intros Hemb Hidx. revert w. induction l as [|[i c] l IH]; intros w.
  - split; [reflexivity | constructor].
  - cbn [for_each].
    assert (Hbody : exists w1 e,
      result (embed_and_store X file_name (i, c) w) = Ret tt /\
      final (embed_and_store X file_name (i, c) w) = w1 /\ P e /\
      upserted (trace (embed_and_store X file_name (i, c) w))
      = [mk_vector (file_name ++ lit "-chunk-" ++ of_nat (i + 1)%nat) e c]).
    { rewrite embed_and_store_run.
      destruct (Hemb c w) as [e [w1 [He HP]]]. rewrite He.
      destruct (Hidx w1) as [w2 Hi]. eexists. exists e.
      cbn [result final trace]. repeat split; [exact HP|].
      change (upserted (Embed c :: ?t)) with (upserted t).
      apply (store_in_pinecone_upserted _ _ _ _ _ Hi). }
    destruct Hbody as [w1 [e [Hr [Hf [HP Hu]]]]].
    rewrite (bind_ret _ _ w tt Hr). cbn [trace].
    rewrite upserted_app, Hu, Hf.
    destruct (IH w1) as [IH1 IH2]. split.
    + cbn [app map fst snd id metadata_text]. f_equal. exact IH1.
    + constructor; [exact HP | exact IH2].
Qed.

(** Whatever the collaborators do, a vector that reaches [index.upsert]
    was built in the iteration of its chunk. *)
Lemma store_in_pinecone_upserted_cases embeddings chunk i w :
  upserted (trace (store_in_pinecone X embeddings chunk i w)) = [] \/
  upserted (trace (store_in_pinecone X embeddings chunk i w))
  = [mk_vector i embeddings chunk].
Proof.
  unfold store_in_pinecone, try_except, bind, call, print.
  destruct (pc_Index X (index_name X) w) as [[[]|e] w1];
    cbn [trace final result]; [|left; reflexivity].
  destruct (index_upsert X _ w1) as [[[]|e] w2]; right; reflexivity.
Qed.

Lemma embed_and_store_loop_sound file_name (l : list (nat * str)) w :
  Forall (fun v => exists ic, In ic l /\ metadata_text v = snd ic /\
            id v = file_name ++ lit "-chunk-" ++ of_nat (fst ic + 1)%nat)
    (upserted (trace (for_each l (embed_and_store X file_name) w))).
Proof.
  revert w. induction l as [|[i c] l IH]; intros w; [constructor|].
  cbn [for_each]. unfold bind. rewrite embed_and_store_run.
  destruct (embed X c w) as [[e|e] w1]; cbn [trace final result];
    [|constructor].
  rewrite upserted_app. apply Forall_app. split.
  - change (upserted (Embed c :: ?t)) with (upserted t).
    destruct (store_in_pinecone_upserted_cases e c
                (file_name ++ lit "-chunk-" ++ of_nat (i + 1)%nat) w1)
      as [-> | ->]; constructor; [|constructor].
    exists (i, c). repeat split. left. reflexivity.
  - eapply Forall_impl; [|apply IH].
    intros v [ic [Hin Hv]]. exists ic. split; [right; exact Hin | exact Hv].
Qed.

Lemma in_enumerate {A} (l : list A) start i (c : A) :
  In (i, c) (combine (seq start (length l)) l) ->
  (start <= i)%nat /\ nth_error l (i - start) = Some c.
Proof.
  revert start. induction l as [|a l IH]; intros start H; [contradiction|].
  simpl in H. destruct H as [E | H].
  - injection E as -> ->. split; [lia|]. rewrite Nat.sub_diag. reflexivity.
  - destruct (IH _ H) as [Hle Hnth]. split; [lia|].
    replace (i - start)%nat with (S (i - S start)) by lia. exact Hnth.
Qed.

Lemma map_fst_combine {A B} (l1 : list A) (l2 : list B) :
  length l1 = length l2 -> map fst (combine l1 l2) = l1.
Proof.
  revert l2. induction l1 as [|a l1 IH]; intros [|b l2] H;
    try discriminate; [reflexivity|].
  simpl. f_equal. apply IH. simpl in H. lia.
Qed.

Lemma map_snd_combine {A B} (l1 : list A) (l2 : list B) :
  length l1 = length l2 -> map snd (combine l1 l2) = l2.
Proof.
  revert l2. induction l1 as [|a l1 IH]; intros [|b l2] H;
    try discriminate; [reflexivity|].
  simpl. f_equal. apply IH. simpl in H. lia.
Qed.

Lemma not_in_false (name : option str) (names : list str) n :
  name = Some n -> In n names -> not_in name names = false.
Proof.
  intros -> Hin. unfold not_in. apply negb_false_iff, existsb_exists.
  exists n. split; [exact Hin | apply eqb_eq; reflexivity].
Qed.

(** An entry always lets the loop go on; it opens its file when it is a
    text file and nothing otherwise. *)
Lemma process_entry_returns dir file w :
  result (process_entry X dir file w) = Ret tt /\
  opened (trace (process_entry X dir file w))
  = if is_txt X dir file then [os_path_join X dir file] else [].
Proof.
  unfold process_entry, is_txt, try_except, bind, call, print.
  destruct (eqb (path_suffix X (os_path_join X dir file)) (lit ".txt"));
    [|split; reflexivity].
  destruct (open_read X (os_path_join X dir file) w) as [[data|e] w1];
    cbn [trace final result]; [|split; reflexivity].
  destruct (process_text_quiet data file w1) as [Hres Hop].
  destruct (process_text X data file w1) as [t w2 [[]|e|s]];
    cbn [trace final result] in *.
  - split; [reflexivity|].
    cbn [app opened flat_map]. fold (opened t). rewrite Hop. reflexivity.
  - split; [reflexivity|].
    rewrite opened_app. cbn [app opened flat_map]. fold (opened t).
    rewrite Hop. reflexivity.
  - exfalso. exact (Hres s eq_refl).
Qed.

Lemma process_entries dir (fs : list str) w :
  result (for_each fs (process_entry X dir) w) = Ret tt /\
  opened (trace (for_each fs (process_entry X dir) w))
  = map (os_path_join X dir) (filter (is_txt X dir) fs) /\
  for_each fs (process_entry X dir) w
  = for_each (filter (is_txt X dir) fs) (process_entry X dir) w.
Proof.
  revert w. induction fs as [|f fs IH]; intros w.
  - repeat split; reflexivity.
  - cbn [for_each filter].
    destruct (process_entry_returns dir f w) as [Hr Ho].
    destruct (is_txt X dir f) eqn:Htxt.
    + cbn [for_each map]. rewrite !(bind_ret _ _ _ _ Hr). simpl.
      destruct (IH (final (process_entry X dir f w))) as [IH1 [IH2 IH3]].
      rewrite opened_app, Ho, IH2, <- IH3. repeat split; assumption.
    + assert (E : process_entry X dir f w = ret tt w).
      { unfold process_entry. unfold is_txt in Htxt. rewrite Htxt. reflexivity. }
      unfold bind at 1 2 3. rewrite E. simpl.
      destruct (IH w) as [IH1 [IH2 IH3]].
      repeat split; try assumption.
      rewrite <- IH3. destruct (for_each fs (process_entry X dir) w); reflexivity.
Qed.

End PipelineFacts.

(* ================================================================== *)
(** ** The pipeline: properties *)

(** C5: every vector [process_text] sends to the store carries a chunk of
    the text and the id "{file_name}-chunk-{i}" of its 1-based position i;
    and when neither the embedder nor the index handle fails, the vectors
    sent carry, in order, exactly the ids "{file_name}-chunk-1", ...,
    "{file_name}-chunk-n", where n is the number of chunks, the i-th of
    them with the i-th chunk. *)
Theorem process_text_ids {float World : Type} (X : externals float World)
    (text file_name : str) (w : World) :
  (forall v, In v (upserted (trace (process_text X text file_name w))) ->
     exists i,
       nth_error (chunk_text text default_chunk_size) i
       = Some (metadata_text v) /\
       id v = file_name ++ lit "-chunk-" ++ of_nat (i + 1)%nat) /\
  ((forall s w, exists e w', embed X s w = (Ok e, w')) ->
   (forall w, exists w', pc_Index X (index_name X) w = (Ok tt, w')) ->
   map id (upserted (trace (process_text X text file_name w)))
   = map (fun i => file_name ++ lit "-chunk-" ++ of_nat i)
         (seq 1 (length (chunk_text text default_chunk_size))) /\
   map metadata_text (upserted (trace (process_text X text file_name w)))
   = chunk_text text default_chunk_size).
Proof.
  unfold process_text. split.
  { intros v Hv.
    pose proof (embed_and_store_loop_sound X file_name
                  (enumerate (chunk_text text default_chunk_size)) w) as H.
    rewrite Forall_forall in H. destruct (H v Hv) as [[i c] [Hin [Hm Hid]]].
    apply in_enumerate in Hin as [_ Hnth]. rewrite Nat.sub_0_r in Hnth.
    exists i. cbn [fst snd] in *. rewrite Hm. split; assumption. }
  intros Hemb Hidx.
  destruct (embed_and_store_loop X (fun _ => True) file_name
              (enumerate (chunk_text text default_chunk_size)) w) as [H _].
  { intros s w1. destruct (Hemb s w1) as [e [w2 He]]. exists e, w2. tauto. }
  { exact Hidx. }
  set (U := upserted _) in *.
  set (chunks := chunk_text text default_chunk_size) in *.
  assert (Hlen : length (seq 0 (length chunks)) = length chunks)
    by apply length_seq.
  split.
  - assert (E : map id U = map fst (map (fun v => (id v, metadata_text v)) U))
      by (rewrite map_map; apply map_ext; reflexivity).
    rewrite E, H, map_map. unfold enumerate.
    rewrite <- seq_shift, map_map.
    rewrite <- (map_fst_combine (seq 0 (length chunks)) chunks Hlen) at 2.
    rewrite map_map. apply map_ext. intros [i c]. cbn [fst].
    rewrite Nat.add_1_r. reflexivity.
  - assert (E : map metadata_text U
                = map snd (map (fun v => (id v, metadata_text v)) U))
      by (rewrite map_map; apply map_ext; reflexivity).
    rewrite E, H, map_map. unfold enumerate.
    etransitivity; [|exact (map_snd_combine _ _ Hlen)].
    apply map_ext. intros [i c]. reflexivity.
Qed.

Lemma process_text_ids_witness :
  (exists i,
     nth_error (chunk_text (lit "alpha beta") default_chunk_size) i
     = Some (lit "alpha beta") /\
     lit "notes.txt-chunk-1"
     = lit "notes.txt" ++ lit "-chunk-" ++ of_nat (i + 1)%nat) /\
  (map id (upserted (trace (process_text (Demo.ext Demo.kb Demo.codes)
                              Demo.long_text (lit "notes.txt") Demo.w0)))
   = map (fun i => lit "notes.txt" ++ lit "-chunk-" ++ of_nat i)
         (seq 1 (length (chunk_text Demo.long_text default_chunk_size))) /\
   map metadata_text
       (upserted (trace (process_text (Demo.ext Demo.kb Demo.codes)
                           Demo.long_text (lit "notes.txt") Demo.w0)))
   = chunk_text Demo.long_text default_chunk_size).
Proof.
  split.
  - apply (proj1 (process_text_ids (Demo.ext Demo.kb Demo.codes)
                    (lit "alpha beta") (lit "notes.txt") Demo.w0)
             (mk_vector (lit "notes.txt-chunk-1")
                (Demo.codes (lit "alpha beta")) (lit "alpha beta"))).
    left. reflexivity.
  - apply (proj2 (process_text_ids (Demo.ext Demo.kb Demo.codes)
                    Demo.long_text (lit "notes.txt") Demo.w0)).
    + intros s w. exists (Demo.codes s), w. reflexivity.
    + intros w. exists w. reflexivity.
Defined.

(** C6: when listing the indexes raises, or when the index is missing and
    creating it raises, the script prints the error and ends with exit
    status 1, having done nothing else: no directory is listed and no file
    is opened.  When the index is among the listed names, provisioning
    makes no creation call, changes nothing and the script goes on with the
    loading of the model and the processing. *)
Theorem provision_failure_exits {float World : Type}
    (X : externals float World) (w : World) :
  (forall e w',
     list_indexes_names X w = (Err e, w') ->
     script X w
     = mk_run [ListIndexes; Print (lit "Error creating Pinecone index: " ++ e)]
              w' (Exit 1)) /\
  (forall names w1 e w',
     list_indexes_names X w = (Ok names, w1) ->
     not_in (index_name X) names = true ->
     create_index X (index_name X) 4096 (lit "cosine") (lit "aws")
       (environment X) w1 = (Err e, w') ->
     script X w
     = mk_run [ListIndexes;
               CreateIndex (index_name X) 4096 (lit "cosine") (lit "aws")
                 (environment X);
               Print (lit "Error creating Pinecone index: " ++ e)]
              w' (Exit 1)) /\
  (forall names w1 name,
     list_indexes_names X w = (Ok names, w1) ->
     index_name X = Some name -> In name names ->
     provision X w = mk_run [ListIndexes] w1 (Ret tt) /\
     script X w
     = mk_run (ListIndexes :: trace (bind (load X) (fun _ => ingest_and_search X) w1))
         (final (bind (load X) (fun _ => ingest_and_search X) w1))
         (result (bind (load X) (fun _ => ingest_and_search X) w1))).
Proof.
  split; [|split].
  - intros e w' H.
    assert (Hp : provision X w
                 = mk_run [ListIndexes;
                           Print (lit "Error creating Pinecone index: " ++ e)]
                          w' (Exit 1)).
    { unfold provision, try_except, bind, call, print, exit.
      rewrite H. reflexivity. }
    unfold script. unfold bind at 1. rewrite Hp. reflexivity.
  - intros names w1 e w' H Hmiss Hc.
    assert (Hp : provision X w
                 = mk_run [ListIndexes;
                           CreateIndex (index_name X) 4096 (lit "cosine")
                             (lit "aws") (environment X);
                           Print (lit "Error creating Pinecone index: " ++ e)]
                          w' (Exit 1)).
    { unfold provision, try_except, bind, call, print, exit.
      rewrite H. cbn [trace final result]. rewrite Hmiss, Hc. reflexivity. }
    unfold script. unfold bind at 1. rewrite Hp. reflexivity.
  - intros names w1 name H Hname Hin.
    pose proof (not_in_false _ _ _ Hname Hin) as Hex.
    assert (Hp : provision X w = mk_run [ListIndexes] w1 (Ret tt)).
    { unfold provision, try_except, bind, call, ret.
      rewrite H. cbn [trace final result]. rewrite Hex. reflexivity. }
    split; [exact Hp|].
    unfold script. unfold bind at 1. rewrite Hp. reflexivity.
Qed.

Lemma provision_failure_exits_witness :
  script (Demo.ext Demo.kb Demo.codes) Demo.w_down
  = mk_run [ListIndexes;
            Print (lit "Error creating Pinecone index: " ++ Demo.down)]
           Demo.w_down (Exit 1)
  /\
  script (Demo.ext None Demo.codes) Demo.w_missing
  = mk_run [ListIndexes;
            CreateIndex None 4096 (lit "cosine") (lit "aws")
              (Some (lit "us-east-1"));
            Print (lit "Error creating Pinecone index: "
                   ++ lit "name is required")]
           Demo.w_missing (Exit 1)
  /\
  provision (Demo.ext Demo.kb Demo.codes) Demo.w0
  = mk_run [ListIndexes] Demo.w0 (Ret tt).
Proof.
  split; [|split].
  - apply (proj1 (provision_failure_exits (Demo.ext Demo.kb Demo.codes)
                    Demo.w_down)).
    reflexivity.
  - apply (proj1 (proj2 (provision_failure_exits (Demo.ext None Demo.codes)
                           Demo.w_missing)) [] Demo.w_missing);
      reflexivity.
  - apply (proj2 (proj2 (provision_failure_exits (Demo.ext Demo.kb Demo.codes)
                           Demo.w0)) [lit "kb"] Demo.w0 (lit "kb")).
    + reflexivity.
    + reflexivity.
    + left. reflexivity.
Defined.

(** C7: when the embedding of the query is empty, [search_in_pinecone]
    prints that it failed and returns without asking for the index or
    querying it.  [process_text] has no such test: when the embedder gives
    the empty embedding (and the index handle is had), every chunk is still
    sent to [index.upsert], with the empty list as its values. *)
Theorem empty_embedding_handling {float World : Type}
    (X : externals float World) :
  (forall query w w',
     embed X query w = (Ok [], w') ->
     search_in_pinecone X query w
     = mk_run [Embed query;
               Print (lit "Failed to get embeddings for the query.")]
              w' (Ret tt)) /\
  ((forall s w, exists w', embed X s w = (Ok [], w')) ->
   (forall w, exists w', pc_Index X (index_name X) w = (Ok tt, w')) ->
   forall text file_name w,
     map (fun v => (metadata_text v, values v))
         (upserted (trace (process_text X text file_name w)))
     = map (fun chunk => (chunk, []))
           (chunk_text text default_chunk_size)).
Proof.
  split.
  - intros query w w' H.
    unfold search_in_pinecone, bind, get_embeddings, call, print.
    rewrite H. reflexivity.
  - intros Hemb Hidx text file_name w. unfold process_text.
    destruct (embed_and_store_loop X (fun e => e = []) file_name
                (enumerate (chunk_text text default_chunk_size)) w) as [H HP].
    { intros s w1. destruct (Hemb s w1) as [w2 He]. exists [], w2. tauto. }
    { exact Hidx. }
    set (U := upserted _) in *.
    set (chunks := chunk_text text default_chunk_size) in *.
    assert (E : map (fun v => (metadata_text v, values v)) U
                = map (fun v => (metadata_text v, [])) U).
    { apply map_ext_in. intros v Hv. rewrite Forall_forall in HP.
      rewrite (HP v Hv). reflexivity. }
    rewrite E.
    rewrite <- (map_map metadata_text (fun c => (c, @nil float))).
    f_equal.
    assert (E2 : map metadata_text U
                 = map snd (map (fun v => (id v, metadata_text v)) U))
      by (rewrite map_map; apply map_ext; reflexivity).
    rewrite E2, H, map_map. unfold enumerate.
    etransitivity;
      [|exact (map_snd_combine (seq 0 (length chunks)) chunks
                 (length_seq (length chunks) 0))].
    apply map_ext. intros [i c]. reflexivity.
Qed.

Lemma empty_embedding_handling_witness :
  search_in_pinecone (Demo.ext Demo.kb Demo.silent)
    (lit "CAN YOU GIVE ME INFORMATION ABOUT IITJ,JODHPUR?") Demo.w0
  = mk_run [Embed (lit "CAN YOU GIVE ME INFORMATION ABOUT IITJ,JODHPUR?");
            Print (lit "Failed to get embeddings for the query.")]
           Demo.w0 (Ret tt)
  /\
  map (fun v => (metadata_text v, values v))
      (upserted (trace (process_text (Demo.ext Demo.kb Demo.silent)
                          (lit "alpha beta") (lit "notes.txt") Demo.w0)))
  = map (fun chunk => (chunk, []))
        (chunk_text (lit "alpha beta") default_chunk_size).
Proof.
  destruct (empty_embedding_handling (Demo.ext Demo.kb Demo.silent)) as [A B].
  split.
  - apply A. reflexivity.
  - apply B.
    + intros s w. exists w. reflexivity.
    + intros w. exists w. reflexivity.
Defined.

(* ================================================================== *)
(** ** The chunker: further properties *)

Section ChunkMore.

Variable n : Z.

Lemma fold_left_cons {A B} (f : A -> B -> A) (x : B) (l : list B) (a : A) :
  fold_left f (x :: l) a = fold_left f l (f a x).
Proof. reflexivity. Qed.

(** Once a word has been read, the buffer ends with the separator. *)
Lemma chunk_loop_buffer (ws : list str) (st : list str * str) :
  ws <> [] -> exists b, snd (fold_left (chunk_step n) ws st) = b ++ [sp].
Proof.
  revert st. induction ws as [|w ws IH]; intros [chunks chunk] Hne;
    [contradiction|].
  destruct ws as [|y ws].
  - simpl. destruct (len chunk + len w <=? n); simpl.
    + exists (chunk ++ w). rewrite <- app_assoc. reflexivity.
    + exists w. reflexivity.
  - rewrite fold_left_cons. apply IH. discriminate.
Qed.

Lemma concat_length_ge {A} (L : list (list A)) :
  Forall (fun g => g <> []) L -> (length L <= length (concat L))%nat.
Proof.
  induction 1 as [|g L Hg _ IH]; simpl; [lia|].
  rewrite length_app. destruct g; [contradiction | simpl; lia].
Qed.

(** Words that fit together stay together. *)
Lemma chunk_loop_fits (ws : list str) chunks chunk :
  ws <> [] -> len chunk + len (join [sp] ws) <= n ->
  fold_left (chunk_step n) ws (chunks, chunk)
  = (chunks, chunk ++ join [sp] ws ++ [sp]).
Proof.
  revert chunk. induction ws as [|w ws IH]; intros chunk Hne Hfit;
    [contradiction|].
  destruct ws as [|y ws].
  - simpl in *. apply Z.leb_le in Hfit. rewrite Hfit. reflexivity.
  - change (join [sp] (w :: y :: ws)) with (w ++ [sp] ++ join [sp] (y :: ws))
      in *.
    rewrite !len_app in Hfit. change (len [sp]) with 1 in Hfit.
    pose proof (len_nonneg (join [sp] (y :: ws))).
    rewrite fold_left_cons. unfold chunk_step at 2.
    destruct (len chunk + len w <=? n) eqn:E;
      [|apply Z.leb_gt in E; lia].
    rewrite IH; [|discriminate|rewrite !len_app; change (len [sp]) with 1; lia].
    rewrite <- !app_assoc. reflexivity.
Qed.

(** Words that are each too long go one to a chunk. *)
Lemma chunk_loop_oversized (ws : list str) chunks w0 :
  Forall (fun w => n < len w) ws ->
  finish (fold_left (chunk_step n) ws (chunks, w0 ++ [sp]))
  = chunks ++ map strip (w0 :: ws).
Proof.
  intros H. revert chunks w0. induction H as [|w ws Hw _ IH]; intros chunks w0.
  - assert (T : truthy (w0 ++ [sp]) = true) by (destruct w0; reflexivity).
    cbn [fold_left finish]. rewrite T, (strip_snoc w0 sp isspace_sp).
    reflexivity.
  - rewrite fold_left_cons. unfold chunk_step at 2.
    pose proof (len_nonneg (w0 ++ [sp])).
    destruct (len (w0 ++ [sp]) + len w <=? n) eqn:E;
      [apply Z.leb_le in E; lia|].
    rewrite IH, (strip_snoc w0 sp isspace_sp), <- app_assoc. reflexivity.
Qed.

Lemma tight_snoc (L : list (list str)) a w :
  tight n (L ++ [a]) -> n < len (buffer a) + len w ->
  tight n ((L ++ [a]) ++ [[w]]).
Proof.
  intros HL Hw pre a' w' b post E.
  induction post as [|x post _] using rev_ind.
  - change (pre ++ [a'; w' :: b]) with (pre ++ [a'] ++ [w' :: b]) in E.
    rewrite app_assoc in E.
    apply app_inj_tail in E as [E1 E2]. apply app_inj_tail in E1 as [_ <-].
    injection E2 as <- _. exact Hw.
  - apply (HL pre a' w' b post).
    change (pre ++ a' :: (w' :: b) :: post ++ [x])
      with (pre ++ (a' :: (w' :: b) :: post) ++ [x]) in E.
    rewrite app_assoc in E. apply app_inj_tail in E as [E _]. exact E.
Qed.

Lemma tight_grow (gs : list (list str)) g w :
  tight n (gs ++ [g]) -> gs = [] \/ g <> [] -> tight n (gs ++ [g ++ [w]]).
Proof.
  intros HL Hg pre a w' b post E.
  induction post as [|x post _] using rev_ind.
  - change (pre ++ [a; w' :: b]) with (pre ++ [a] ++ [w' :: b]) in E.
    rewrite app_assoc in E. apply app_inj_tail in E as [E1 E2].
    destruct Hg as [-> | Hg]; [destruct pre; discriminate|].
    destruct g as [|w0 g]; [contradiction|].
    injection E2 as -> _.
    apply (HL pre a w' g []). rewrite E1, <- app_assoc. reflexivity.
  - change (pre ++ a :: (w' :: b) :: post ++ [x])
      with (pre ++ (a :: (w' :: b) :: post) ++ [x]) in E.
    rewrite app_assoc in E. apply app_inj_tail in E as [E _].
    apply (HL pre a w' b (post ++ [g])).
    rewrite E, <- app_assoc. reflexivity.
Qed.

Lemma group_loop_tight (ws : list str) gs g :
  tight n (gs ++ [g]) -> Forall (fun g => g <> []) (tl (gs ++ [g])) ->
  tight n (fst (fold_left (group_step n) ws (gs, g))
           ++ [snd (fold_left (group_step n) ws (gs, g))]).
Proof.
  revert gs g. induction ws as [|w ws IH]; intros gs g Ht Hne; [exact Ht|].
  rewrite fold_left_cons.
  pose proof (group_loop_tail n [w] gs g Hne) as Hne'.
  simpl fold_left in Hne'. unfold group_step at 2 4. unfold group_step in Hne'.
  destruct (len (buffer g) + len w <=? n) eqn:E; apply IH; try exact Hne'.
  - apply tight_grow; [exact Ht|].
    destruct gs as [|g0 gs]; [left; reflexivity|].
    right. simpl in Hne. apply Forall_app in Hne as [_ Hg].
    inversion Hg. assumption.
  - apply tight_snoc; [exact Ht|]. apply Z.leb_gt in E. exact E.
Qed.

Lemma chunk_groups_tight (text : str) : tight n (chunk_groups text n).
Proof.
  unfold chunk_groups.
  pose proof (group_loop_tight (split sp text) [] []) as H.
  destruct (fold_left (group_step n) (split sp text) ([], [])) as [gs g].
  simpl in H.
  assert (Ht : tight n (gs ++ [g])).
  { apply H; [|constructor]. intros [|? [|? ?]] a w b post E; discriminate. }
  destruct (truthy (buffer g)); [exact Ht|].
  intros pre a w b post E. apply (Ht pre a w b (post ++ [g])).
  rewrite E, <- app_assoc. reflexivity.
Qed.

End ChunkMore.

Lemma join_app (s : str) (a b : list str) :
  a <> [] -> b <> [] -> join s (a ++ b) = join s a ++ s ++ join s b.
Proof.
  intros Ha Hb. induction a as [|x a IH]; [contradiction|].
  destruct a as [|y a].
  - destruct b; [contradiction | reflexivity].
  - change (join s ((x :: y :: a) ++ b)) with (x ++ s ++ join s ((y :: a) ++ b)).
    rewrite IH by discriminate.
    change (join s (x :: y :: a)) with (x ++ s ++ join s (y :: a)).
    rewrite <- !app_assoc. reflexivity.
Qed.

Lemma buffer_join (g : list str) : g <> [] -> buffer g = join [sp] g ++ [sp].
Proof.
  intros Hg. induction g as [|w g IH]; [contradiction|].
  destruct g as [|y g].
  - apply buffer_one.
  - change (buffer (w :: y :: g)) with ((w ++ [sp]) ++ buffer (y :: g)).
    rewrite IH by discriminate.
    change (join [sp] (w :: y :: g)) with (w ++ [sp] ++ join [sp] (y :: g)).
    rewrite <- !app_assoc. reflexivity.
Qed.

Lemma render_join (g : list str) : g <> [] -> render g = strip (join [sp] g).
Proof.
  intros Hg. unfold render. rewrite (buffer_join g Hg).
  apply strip_snoc, isspace_sp.
Qed.

Lemma join_concat (L : list (list str)) :
  Forall (fun g => g <> []) L ->
  join [sp] (concat L) = join [sp] (map (join [sp]) L).
Proof.
  induction 1 as [|g L Hg HL IH]; [reflexivity|].
  destruct L as [|g' L].
  - simpl. rewrite app_nil_r. reflexivity.
  - change (concat (g :: g' :: L)) with (g ++ concat (g' :: L)).
    rewrite join_app, IH; [reflexivity | exact Hg | ].
    inversion HL as [|? ? Hg' _]. simpl.
    destruct g'; [contradiction | discriminate].
Qed.

(** X1: whatever the text and the limit, there is at least one chunk, and
    at most one chunk more than the text has words (pieces between single
    spaces). *)
Theorem chunk_text_count (text : str) (chunk_size : Z) :
  (1 <= length (chunk_text text chunk_size) <= length (split sp text) + 1)%nat.
Proof.
  split.
  - rewrite chunk_text_finish.
    destruct (chunk_loop_buffer chunk_size (split sp text) ([], [])
                (split_nonempty sp text)) as [b Hb].
    destruct (fold_left (chunk_step chunk_size) (split sp text) ([], []))
      as [chunks chunk].
    simpl in Hb. subst chunk. unfold finish.
    replace (truthy (b ++ [sp])) with true by (destruct b; reflexivity).
    rewrite length_app. simpl. lia.
  - rewrite chunk_text_groups, length_map,
      <- (chunk_groups_concat chunk_size text).
    pose proof (chunk_groups_tail chunk_size text) as Htl.
    destruct (chunk_groups text chunk_size) as [|g0 gs]; [simpl; lia|].
    simpl in *. rewrite length_app.
    pose proof (concat_length_ge gs Htl). lia.
Qed.

(** X2: a text no longer than the limit is not cut: the result is the
    single chunk [text.strip()]. *)
Theorem chunk_text_short (text : str) (chunk_size : Z) :
  len text <= chunk_size -> chunk_text text chunk_size = [strip text].
Proof.
  intros Hfit.
  pose proof (chunk_loop_fits chunk_size (split sp text) [] []
                (split_nonempty sp text)) as E.
  rewrite join_split in E. specialize (E Hfit).
  rewrite chunk_text_finish.
  etransitivity; [exact (f_equal finish E)|].
  unfold finish. simpl app.
  replace (truthy (text ++ [sp])) with true by (destruct text; reflexivity).
  rewrite (strip_snoc text sp isspace_sp). reflexivity.
Qed.

Lemma chunk_text_short_witness :
  chunk_text (lit "  a short line ") 15 = [strip (lit "  a short line ")].
Proof. apply chunk_text_short. vm_compute. discriminate. Defined.

(** X3: the loop is greedy.  With the words grouped as the chunks hold
    them, wherever a group is followed by another, the first word of the
    second did not fit: the buffer of the first group (its words, each
    followed by a space) and that word together are longer than the
    limit. *)
Theorem chunk_text_greedy (text : str) (chunk_size : Z) :
  exists gs : list (list str),
    concat gs = split sp text /\
    chunk_text text chunk_size = map render gs /\
    forall pre a w b post,
      gs = pre ++ a :: (w :: b) :: post ->
      chunk_size < len (buffer a) + len w.
Proof.
  exists (chunk_groups text chunk_size). split; [|split].
  - apply chunk_groups_concat.
  - apply chunk_text_groups.
  - apply chunk_groups_tight.
Qed.

(** X4: when every word of the text is longer than the limit (so for every
    text when the limit is negative), the result is the empty chunk followed
    by each word, stripped, in its own chunk. *)
Theorem chunk_text_all_oversized (text : str) (chunk_size : Z) :
  Forall (fun w => chunk_size < len w) (split sp text) ->
  chunk_text text chunk_size = [] :: map strip (split sp text).
Proof.
  intros H. rewrite chunk_text_finish.
  pose proof (split_nonempty sp text) as Hne.
  destruct (split sp text) as [|w ws]; [contradiction|].
  inversion H as [|? ? Hw Hws]; subst.
  rewrite fold_left_cons. unfold chunk_step at 2.
  pose proof (len_nonneg w). change (len []) with 0.
  destruct (0 + len w <=? chunk_size) eqn:E; [apply Z.leb_le in E; lia|].
  apply (chunk_loop_oversized chunk_size ws [strip []] w Hws).
Qed.

Lemma chunk_text_all_oversized_witness :
  chunk_text (lit "alpha  beta") (-1)
  = [] :: map strip (split sp (lit "alpha  beta")).
Proof.
  apply chunk_text_all_oversized.
  repeat constructor.
Defined.

(** X5: the chunks are the pieces of a cut of the text at single spaces,
    each stripped: joined again with single spaces the pieces give the text
    back, character for character.  Only the empty first chunk, when there
    is one, is no piece of the text. *)
Theorem chunk_text_pieces (text : str) (chunk_size : Z) :
  exists pieces : list str,
    join [sp] pieces = text /\
    (chunk_text text chunk_size = map strip pieces \/
     chunk_text text chunk_size = [] :: map strip pieces).
Proof.
  pose proof (chunk_groups_tail chunk_size text) as Htl.
  pose proof (chunk_groups_concat chunk_size text) as Hcat.
  rewrite chunk_text_groups.
  assert (Hmap : forall L : list (list str), Forall (fun g => g <> []) L ->
            map render L = map strip (map (join [sp]) L)).
  { intros L HL. rewrite map_map. apply map_ext_in. intros g Hg.
    rewrite Forall_forall in HL. apply render_join, HL, Hg. }
  destruct (chunk_groups text chunk_size) as [|g0 gs].
  { exfalso. apply (split_nonempty sp text). symmetry. exact Hcat. }
  simpl in Htl. destruct g0 as [|w g0].
  - exists (map (join [sp]) gs). split.
    + rewrite <- (join_concat gs Htl). simpl in Hcat. rewrite Hcat.
      apply join_split.
    + right. cbn [map]. rewrite (Hmap gs Htl). reflexivity.
  - assert (Hall : Forall (fun g => g <> []) ((w :: g0) :: gs))
      by (constructor; [discriminate | exact Htl]).
    exists (map (join [sp]) ((w :: g0) :: gs)). split.
    + rewrite <- (join_concat _ Hall), Hcat. apply join_split.
    + left. apply (Hmap _ Hall).
Qed.

(* ================================================================== *)
(** ** The pipeline: further facts about its statements *)

Section PipelineMore.

Context {float World : Type}.
Variable X : externals float World.

Lemma embedded_app (t1 t2 : list (event float)) :
  embedded (t1 ++ t2) = embedded t1 ++ embedded t2.
Proof. apply flat_map_app. Qed.

Lemma store_in_pinecone_embedded embeddings chunk i w :
  embedded (trace (store_in_pinecone X embeddings chunk i w)) = [].
Proof.
  unfold store_in_pinecone, try_except, bind, call, print.
  destruct (pc_Index X (index_name X) w) as [[[]|e] w1];
    cbn [trace final result]; [|reflexivity].
  destruct (index_upsert X _ w1) as [[[]|e] w2]; reflexivity.
Qed.


(** One iteration followed by the rest of the loop. *)
Lemma embed_and_store_cons file_name i c (l : list (nat * str)) w :
  for_each ((i, c) :: l) (embed_and_store X file_name) w
  = match embed X c w with
    | (Ok e, w1) =>
        let r := store_in_pinecone X e c
                   (file_name ++ lit "-chunk-" ++ of_nat (i + 1)%nat) w1 in
        let r' := for_each l (embed_and_store X file_name) (final r) in
        mk_run (Embed c :: trace r ++ trace r') (final r') (result r')
    | (Err e, w1) => mk_run [Embed c] w1 (Raise e)
    end.
Proof.
  cbn [for_each]. unfold bind at 1. rewrite embed_and_store_run.
  destruct (embed X c w) as [[e|e] w1]; reflexivity.
Qed.


(** With an embedder that does not fail the loop runs to its end, whatever
    the store does. *)
Lemma embed_and_store_complete file_name (l : list (nat * str)) w :
  (forall s w, exists e w', embed X s w = (Ok e, w')) ->
  result (for_each l (embed_and_store X file_name) w) = Ret tt /\
  embedded (trace (for_each l (embed_and_store X file_name) w)) = map snd l.
Proof.
  intros Hemb. revert w. induction l as [|[i c] l IH]; intros w.
  - split; reflexivity.
  - rewrite embed_and_store_cons.
    destruct (Hemb c w) as [e [w1 ->]]. cbn [trace final result].
    set (r := store_in_pinecone X e c _ w1).
    destruct (IH (final r)) as [IH1 IH2]. split; [exact IH1|].
    change (embedded (Embed c :: ?t)) with (c :: embedded t).
    rewrite embedded_app, IH2. unfold r.
    rewrite store_in_pinecone_embedded. reflexivity.
Qed.

Lemma digits_inj (u v : Decimal.uint) : digits u = digits v -> u = v.
Proof.
  revert v. induction u; intros v H; destruct v; simpl in H;
    try discriminate; try reflexivity;
    injection H as H; f_equal; apply IHu; exact H.
Qed.

(** Different positions have different decimal numerals. *)
Lemma of_nat_inj (a b : nat) : of_nat a = of_nat b -> a = b.
Proof.
  unfold of_nat. intros H. apply digits_inj in H.
  rewrite <- (DecimalNat.Unsigned.of_to a), <- (DecimalNat.Unsigned.of_to b), H.
  reflexivity.
Qed.

Lemma embed_and_store_nodup file_name (l : list (nat * str)) w :
  NoDup (map fst l) ->
  NoDup (map id (upserted (trace (for_each l (embed_and_store X file_name) w)))).
Proof.
  revert w. induction l as [|[i c] l IH]; intros w Hnd; [constructor|].
  inversion Hnd as [|? ? Hi Hl]; subst.
  rewrite embed_and_store_cons.
  destruct (embed X c w) as [[e|e] w1]; cbn [trace final result];
    [|constructor].
  set (r := store_in_pinecone X e c _ w1).
  change (upserted (Embed c :: ?t)) with (upserted t).
  rewrite upserted_app, map_app.
  specialize (IH (final r) Hl).
  destruct (store_in_pinecone_upserted_cases X e c
              (file_name ++ lit "-chunk-" ++ of_nat (i + 1)%nat) w1)
    as [E | E]; fold r in E; rewrite E; [exact IH|].
  cbn [map app id]. constructor; [|exact IH].
  intros Hin. apply in_map_iff in Hin as [v [Hid Hv]].
  pose proof (embed_and_store_loop_sound X file_name l (final r)) as Hs.
  rewrite Forall_forall in Hs. destruct (Hs v Hv) as [[j c'] [Hj [_ Hidj]]].
  cbn [fst] in Hidj. rewrite Hidj in Hid.
  apply app_inv_head in Hid. apply app_inv_head in Hid.
  apply of_nat_inj in Hid. apply Hi.
  apply in_map_iff. exists (j, c'). split; [simpl; lia | exact Hj].
Qed.

End PipelineMore.

Section ScriptFacts.

Context {float World : Type}.
Variable X : externals float World.

(** A loop that only prints. *)
Lemma for_each_prints {A} (f : A -> list str)
    (body : A -> M float World unit) (l : list A) w :
  (forall x w, body x w = mk_run (map Print (f x)) w (Ret tt)) ->
  for_each l body w = mk_run (map Print (flat_map f l)) w (Ret tt).
Proof.
  intros Hbody. revert w. induction l as [|x l IH]; intros w; [reflexivity|].
  cbn [for_each flat_map]. unfold bind. rewrite Hbody.
  cbn [trace final result]. rewrite IH.
  cbn [trace final result]. rewrite map_app. reflexivity.
Qed.

Lemma bind_call {A B} (ev : event float) (f : World -> res A * World)
    (k : A -> M float World B) w :
  bind (call ev f) k w
  = match f w with
    | (Ok a, w1) => mk_run (ev :: trace (k a w1)) (final (k a w1))
                      (result (k a w1))
    | (Err e, w1) => mk_run [ev] w1 (Raise e)
    end.
Proof. unfold bind, call. destruct (f w) as [[a|e] w1]; reflexivity. Qed.

Lemma bind_print {B} (line : str) (k : unit -> M float World B) w :
  bind (print line) k w
  = mk_run (Print line :: trace (k tt w)) (final (k tt w)) (result (k tt w)).
Proof. reflexivity. Qed.

(** Lines 132-135. *)
Lemma print_matches (matches : list (scored float)) w :
  for_each (enumerate matches)
    (fun '((idx, m) : nat * scored float) =>
       bind (print (of_nat (idx + 1)%nat ++ lit ". Score: "
                    ++ str_of_float X (score m)))
         (fun _ => bind (print (lit "Text: " ++ text_of m))
            (fun _ : unit =>
               @print float World (lit "--------------------------------")))) w
  = mk_run
      (map Print
         (flat_map (fun im : nat * scored float =>
                      [of_nat (fst im + 1)%nat ++ lit ". Score: "
                         ++ str_of_float X (score (snd im));
                       lit "Text: " ++ text_of (snd im);
                       lit "--------------------------------"])
                   (enumerate matches)))
      w (Ret tt).
Proof.
  apply for_each_prints. intros [idx m] w'. reflexivity.
Qed.

(** What [search_in_pinecone] does once it has an embedding that is not
    empty: lines 122-139. *)
Lemma search_in_pinecone_run query w :
  search_in_pinecone X query w
  = match embed X query w with
    | (Err e, w1) => mk_run [Embed query] w1 (Raise e)
    | (Ok [], w1) =>
        mk_run [Embed query;
                Print (lit "Failed to get embeddings for the query.")]
               w1 (Ret tt)
    | (Ok (x :: v), w1) =>
        match pc_Index X (index_name X) w1 with
        | (Err e, w2) =>
            mk_run [Embed query; Index (index_name X);
                    Print (lit "Error searching Pinecone: " ++ e)] w2 (Ret tt)
        | (Ok _, w2) =>
            match index_query X (x :: v) 4 true w2 with
            | (Err e, w3) =>
                mk_run [Embed query; Index (index_name X);
                        Query (x :: v) 4 true;
                        Print (lit "Error searching Pinecone: " ++ e)]
                       w3 (Ret tt)
            | (Ok matches, w3) =>
                mk_run ([Embed query; Index (index_name X);
                         Query (x :: v) 4 true]
                        ++ map Print (result_lines X matches))
                       w3 (Ret tt)
            end
        end
    end.
Proof.
  unfold search_in_pinecone, get_embeddings. rewrite bind_call.
  destruct (embed X query w) as [[[|x v]|e] w1]; [reflexivity| |reflexivity].
  change (Z.of_nat (length (x :: v)) =? 0) with false. cbv iota zeta.
  unfold try_except. rewrite bind_call.
  destruct (pc_Index X (index_name X) w1) as [[[]|e] w2];
    cbn [trace final result]; [|reflexivity].
  rewrite bind_call.
  destruct (index_query X (x :: v) 4 true w2) as [[matches|e] w3];
    cbn [trace final result]; [|reflexivity].
  destruct matches as [|m ms]; [reflexivity|].
  rewrite bind_print, (print_matches (m :: ms) w3). reflexivity.
Qed.

Lemma process_directory_result dir w :
  result (process_directory X dir w) = Ret tt.
Proof.
  unfold process_directory, try_except, bind, call, print.
  destruct (os_listdir X dir w) as [[fs|e] w1]; cbn [trace final result];
    [|reflexivity].
  destruct (process_entries X dir fs w1) as [Hr _]. rewrite Hr. reflexivity.
Qed.

(** [provision] either returns or exits with status 1. *)
Lemma provision_result w :
  result (provision X w) = Ret tt \/ result (provision X w) = Exit 1.
Proof.
  unfold provision, try_except, bind, call, print, exit, ret.
  destruct (list_indexes_names X w) as [[names|e] w1];
    cbn [trace final result]; [|right; reflexivity].
  destruct (not_in (index_name X) names); cbn [trace final result];
    [|left; reflexivity].
  destruct (create_index X _ _ _ _ _ w1) as [[[]|e] w2];
    cbn [trace final result]; [left | right]; reflexivity.
Qed.

Lemma load_no_exit w s : result (load X w) <> Exit s.
Proof.
  unfold load, bind, call, raise.
  destruct (hf_token X) as [[|c t]|]; cbn [trace final result];
    try discriminate.
  destruct (login X (c :: t) w) as [[[]|e] w1]; cbn [trace final result];
    [|discriminate].
  destruct (from_pretrained_tokenizer X model_id w1) as [[[]|e] w2];
    cbn [trace final result]; [|discriminate].
  destruct (from_pretrained_model X model_id w2) as [[[]|e] w3]; discriminate.
Qed.

Lemma search_in_pinecone_no_exit query w s :
  result (search_in_pinecone X query w) <> Exit s.
Proof.
  rewrite search_in_pinecone_run.
  destruct (embed X query w) as [[[|x v]|e] w1]; try discriminate.
  destruct (pc_Index X (index_name X) w1) as [[[]|e] w2]; try discriminate.
  destruct (index_query X (x :: v) 4 true w2) as [[ms|e] w3]; discriminate.
Qed.

Lemma ingest_and_search_run w :
  ingest_and_search X w
  = mk_run (trace (process_directory X directory_path w)
            ++ trace (search_in_pinecone X user_query
                        (final (process_directory X directory_path w))))
      (final (search_in_pinecone X user_query
                (final (process_directory X directory_path w))))
      (result (search_in_pinecone X user_query
                 (final (process_directory X directory_path w)))).
Proof.
  unfold ingest_and_search.
  exact (bind_ret (process_directory X directory_path)
           (fun _ => search_in_pinecone X user_query) w tt
           (process_directory_result directory_path w)).
Qed.

Lemma Forall_search_prints (ls : list str) :
  Forall (@search_event float) (map Print ls).
Proof. induction ls; constructor; [exact I | assumption]. Qed.

End ScriptFacts.

Lemma bind_exit {float World A B} (m : M float World A)
    (k : A -> M float World B) w s :
  result (bind m k w) = Exit s ->
  result (m w) = Exit s \/
  exists a, result (m w) = Ret a /\ result (k a (final (m w))) = Exit s.
Proof.
  unfold bind. destruct (m w) as [t w1 [a|e|s']]; cbn [trace final result];
    intros H; [right; exists a; split; [reflexivity | exact H]
              | discriminate | left; injection H as ->; reflexivity].
Qed.

Lemma search_event_quiet {float} (t : list (event float)) :
  Forall search_event t -> upserted t = [] /\ opened t = [].
Proof.
  induction 1 as [|ev t Hev _ [IH1 IH2]]; [split; reflexivity|].
  destruct ev; try contradiction; split; assumption.
Qed.

(* ================================================================== *)
(** ** The pipeline: further properties *)

(** X6: a failing store does not stop [process_text].  When the embedder
    does not raise, [process_text] returns normally and has embedded every
    chunk of the text, in order, whatever the index handle and the upserts
    did. *)
Theorem process_text_embeds_all {float World : Type}
    (X : externals float World) (text file_name : str) (w : World) :
  (forall s w, exists e w', embed X s w = (Ok e, w')) ->
  result (process_text X text file_name w) = Ret tt /\
  embedded (trace (process_text X text file_name w))
  = chunk_text text default_chunk_size.
Proof.
  intros Hemb. unfold process_text.
  destruct (embed_and_store_complete X file_name
              (enumerate (chunk_text text default_chunk_size)) w Hemb)
    as [Hr He].
  split; [exact Hr|]. rewrite He. unfold enumerate.
  apply map_snd_combine, length_seq.
Qed.

Lemma process_text_embeds_all_witness :
  result (process_text Demo.store_down Demo.long_text (lit "notes.txt") Demo.w0)
  = Ret tt /\
  embedded (trace (process_text Demo.store_down Demo.long_text
                     (lit "notes.txt") Demo.w0))
  = chunk_text Demo.long_text default_chunk_size.
Proof.
  apply (process_text_embeds_all Demo.store_down).
  intros s w. exists (Demo.codes s), w. reflexivity.
Defined.



(** X8: the ids of the vectors [process_text] sends to the store for one
    text are pairwise distinct, so that no chunk of a file overwrites
    another chunk of the same file. *)
Theorem process_text_ids_distinct {float World : Type}
    (X : externals float World) (text file_name : str) (w : World) :
  NoDup (map id (upserted (trace (process_text X text file_name w)))).
Proof.
  unfold process_text. apply embed_and_store_nodup.
  unfold enumerate. rewrite map_fst_combine by apply length_seq.
  apply seq_NoDup.
Qed.

(** X9: [process_directory] always returns normally: it neither raises nor
    exits, whatever the file system, the embedder and the store do.  When
    the directory cannot be listed, it prints the error and does nothing
    else. *)
Theorem process_directory_returns {float World : Type}
    (X : externals float World) (dir : str) (w : World) :
  result (process_directory X dir w) = Ret tt /\
  (forall e w',
     os_listdir X dir w = (Err e, w') ->
     process_directory X dir w
     = mk_run [Listdir dir; Print (lit "Error reading directory: " ++ e)]
              w' (Ret tt)).
Proof.
  split; [apply process_directory_result|].
  intros e w' H. unfold process_directory, try_except.
  rewrite bind_call, H. reflexivity.
Qed.

Lemma process_directory_returns_witness :
  process_directory (Demo.ext Demo.kb Demo.codes) (lit "./nowhere") Demo.w0
  = mk_run [Listdir (lit "./nowhere");
            Print (lit "Error reading directory: "
                   ++ lit "No such file or directory")]
           Demo.w0 (Ret tt).
Proof.
  apply (proj2 (process_directory_returns (Demo.ext Demo.kb Demo.codes)
                  (lit "./nowhere") Demo.w0)).
  reflexivity.
Defined.

(** X10: whatever fails while a text file is handled is reported as a
    reading error, and the entry ends normally so that the loop goes on: a
    file that cannot be read gives the line "Error reading file: ..." and
    nothing more; an exception of the embedder during [process_text] gives
    the same line after what [process_text] had done. *)
Theorem process_entry_failures {float World : Type}
    (X : externals float World) (dir file : str) (w : World) :
  is_txt X dir file = true ->
  (forall e w1,
     open_read X (os_path_join X dir file) w = (Err e, w1) ->
     process_entry X dir file w
     = mk_run [OpenRead (os_path_join X dir file);
               Print (lit "Error reading file: " ++ e)] w1 (Ret tt)) /\
  (forall data w1 e,
     open_read X (os_path_join X dir file) w = (Ok data, w1) ->
     result (process_text X data file w1) = Raise e ->
     process_entry X dir file w
     = mk_run (OpenRead (os_path_join X dir file)
               :: Print (lit "Processing file: " ++ file)
               :: trace (process_text X data file w1)
               ++ [Print (lit "Error reading file: " ++ e)])
              (final (process_text X data file w1)) (Ret tt)).
Proof.
  intros Htxt. unfold is_txt in Htxt. split.
  - intros e w1 H. unfold process_entry. rewrite Htxt.
    unfold try_except. rewrite bind_call, H. reflexivity.
  - intros data w1 e H Hr. unfold process_entry. rewrite Htxt.
    unfold try_except. rewrite bind_call, H. cbn [trace final result].
    rewrite bind_print. cbn [trace final result]. rewrite Hr. reflexivity.
Qed.

Lemma process_entry_failures_witness :
  process_entry (Demo.ext Demo.kb Demo.codes) (lit "./documents")
    (lit "gone.txt") Demo.w0
  = mk_run [OpenRead (lit "./documents/gone.txt");
            Print (lit "Error reading file: "
                   ++ lit "No such file or directory")]
           Demo.w0 (Ret tt)
  /\
  process_entry Demo.no_gpu (lit "./documents") (lit "notes.txt") Demo.w0
  = mk_run (OpenRead (lit "./documents/notes.txt")
            :: Print (lit "Processing file: " ++ lit "notes.txt")
            :: trace (process_text Demo.no_gpu (lit "alpha beta")
                        (lit "notes.txt") Demo.w0)
            ++ [Print (lit "Error reading file: " ++ Demo.oom)])
           (final (process_text Demo.no_gpu (lit "alpha beta")
                     (lit "notes.txt") Demo.w0))
           (Ret tt).
Proof.
  split.
  - apply (proj1 (process_entry_failures (Demo.ext Demo.kb Demo.codes)
                    (lit "./documents") (lit "gone.txt") Demo.w0 eq_refl)).
    reflexivity.
  - apply (proj2 (process_entry_failures Demo.no_gpu
                    (lit "./documents") (lit "notes.txt") Demo.w0 eq_refl)
             (lit "alpha beta") Demo.w0 Demo.oom); reflexivity.
Defined.

(** X11: [search_in_pinecone] raises exactly when the embedder raises, with
    the embedder's exception; in every other case, failures of the store
    included, it returns normally. *)
Theorem search_in_pinecone_result {float World : Type}
    (X : externals float World) (query : str) (w : World) :
  result (search_in_pinecone X query w)
  = match fst (embed X query w) with
    | Ok _ => Ret tt
    | Err e => Raise e
    end.
Proof.
  rewrite search_in_pinecone_run.
  destruct (embed X query w) as [[[|x v]|e] w1]; try reflexivity.
  destruct (pc_Index X (index_name X) w1) as [[[]|e] w2]; try reflexivity.
  destruct (index_query X (x :: v) 4 true w2) as [[ms|e] w3]; reflexivity.
Qed.

(** X12: when the embedding of the query is not empty and the store
    answers, [search_in_pinecone] asks for the index, queries it once with
    that embedding, [top_k] 4 and the metadata, and prints the matches in
    the order of the answer, numbered from 1, with score, text and a
    separator each; when there is no match it prints "No similar results
    found." instead. *)
Theorem search_in_pinecone_prints {float World : Type}
    (X : externals float World) (query : str) (w : World)
    x v w1 w2 matches w3 :
  embed X query w = (Ok (x :: v), w1) ->
  pc_Index X (index_name X) w1 = (Ok tt, w2) ->
  index_query X (x :: v) 4 true w2 = (Ok matches, w3) ->
  search_in_pinecone X query w
  = mk_run ([Embed query; Index (index_name X); Query (x :: v) 4 true]
            ++ map Print (result_lines X matches))
           w3 (Ret tt).
Proof.
  intros He Hi Hq. rewrite search_in_pinecone_run, He, Hi, Hq. reflexivity.
Qed.

Lemma search_in_pinecone_prints_witness :
  search_in_pinecone Demo.answering (lit "iitj") Demo.w0
  = mk_run ([Embed (lit "iitj"); Index Demo.kb;
             Query (Demo.codes (lit "iitj")) 4 true]
            ++ map Print
                 [lit "Search Results:";
                  lit "1. Score: 9"; lit "Text: alpha";
                  lit "--------------------------------";
                  lit "2. Score: 7"; lit "Text: beta";
                  lit "--------------------------------"])
           Demo.w0 (Ret tt).
Proof.
  apply (search_in_pinecone_prints Demo.answering (lit "iitj") Demo.w0
           105 [105; 116; 106] Demo.w0 Demo.w0
           [mk_scored 9 (lit "alpha"); mk_scored 7 (lit "beta")] Demo.w0);
    reflexivity.
Defined.

(** X13: [search_in_pinecone] only reads.  Whatever happens, it embeds,
    asks for the index, queries with [top_k] 4 and the metadata, and
    prints: it sends no vector to the store and opens no file. *)
Theorem search_in_pinecone_read_only {float World : Type}
    (X : externals float World) (query : str) (w : World) :
  Forall search_event (trace (search_in_pinecone X query w)) /\
  upserted (trace (search_in_pinecone X query w)) = [] /\
  opened (trace (search_in_pinecone X query w)) = [].
Proof.
  assert (H : Forall search_event (trace (search_in_pinecone X query w))).
  { rewrite search_in_pinecone_run.
    destruct (embed X query w) as [[[|x v]|e] w1]; cbn [trace];
      try (repeat constructor).
    destruct (pc_Index X (index_name X) w1) as [[[]|e] w2]; cbn [trace];
      try (repeat constructor).
    destruct (index_query X (x :: v) 4 true w2) as [[ms|e] w3]; cbn [trace];
      try (repeat constructor).
    apply Forall_search_prints. }
  split; [exact H | apply search_event_quiet, H].
Qed.

(** X14: [provision] lets no exception out: it returns, or it exits with
    status 1.  When the index is missing and can be created, it is created
    with dimension 4096, the cosine metric, on AWS in the region of the
    environment, and the creation is announced. *)
Theorem provision_outcome {float World : Type}
    (X : externals float World) (w : World) :
  (result (provision X w) = Ret tt \/ result (provision X w) = Exit 1) /\
  (forall names w1 w2,
     list_indexes_names X w = (Ok names, w1) ->
     not_in (index_name X) names = true ->
     create_index X (index_name X) 4096 (lit "cosine") (lit "aws")
       (environment X) w1 = (Ok tt, w2) ->
     provision X w
     = mk_run [ListIndexes;
               CreateIndex (index_name X) 4096 (lit "cosine") (lit "aws")
                 (environment X);
               Print (lit "Created Pinecone index '"
                      ++ str_of_env (index_name X)
                      ++ lit "' with dimension 4096.")]
              w2 (Ret tt)).
Proof.
  split; [apply provision_result|].
  intros names w1 w2 Hl Hn Hc. unfold provision, try_except.
  rewrite bind_call, Hl. cbn [trace final result]. rewrite Hn.
  rewrite bind_call, Hc. reflexivity.
Qed.

Lemma provision_outcome_witness :
  provision (Demo.ext Demo.kb Demo.codes) Demo.w_missing
  = mk_run [ListIndexes;
            CreateIndex Demo.kb 4096 (lit "cosine") (lit "aws")
              (Some (lit "us-east-1"));
            Print (lit "Created Pinecone index 'kb' with dimension 4096.")]
           (Demo.mk_world [lit "kb"] [] Demo.docs true) (Ret tt).
Proof.
  apply (proj2 (provision_outcome (Demo.ext Demo.kb Demo.codes) Demo.w_missing)
           [] Demo.w_missing); reflexivity.
Defined.

(** X15: the token is tested after provisioning.  When provisioning
    returns and HUGGINGFACE_API_TOKEN is unset or empty, the script raises
    the configuration error having done nothing but the provisioning: no
    login, no model loaded, no directory listed. *)
Theorem script_missing_token {float World : Type}
    (X : externals float World) (w : World) :
  result (provision X w) = Ret tt ->
  hf_token X = None \/ hf_token X = Some [] ->
  script X w
  = mk_run (trace (provision X w)) (final (provision X w))
      (Raise (lit "HUGGINGFACE_API_TOKEN environment variable not set")).
Proof.
  intros Hp Ht. unfold script. rewrite (bind_ret _ _ w tt Hp).
  assert (E : forall w1,
            bind (load X) (fun _ => ingest_and_search X) w1
            = mk_run [] w1
                (Raise (lit "HUGGINGFACE_API_TOKEN environment variable not set"))).
  { intros w1. unfold load. destruct Ht as [-> | ->]; reflexivity. }
  rewrite E. cbn [trace final result]. rewrite app_nil_r. reflexivity.
Qed.

Lemma script_missing_token_witness :
  script Demo.no_token Demo.w0
  = mk_run [ListIndexes] Demo.w0
      (Raise (lit "HUGGINGFACE_API_TOKEN environment variable not set")).
Proof.
  apply (script_missing_token Demo.no_token Demo.w0).
  - reflexivity.
  - left. reflexivity.
Defined.

(** X16: the query is always made after the directory has been processed,
    whatever went wrong with the files: the effects of the last two
    statements of the script are those of [process_directory] followed by
    those of [search_in_pinecone], which start with the embedding of the
    query. *)
Theorem ingest_then_search {float World : Type}
    (X : externals float World) (w : World) :
  exists t,
    trace (ingest_and_search X w)
    = trace (process_directory X directory_path w) ++ Embed user_query :: t /\
    trace (search_in_pinecone X user_query
             (final (process_directory X directory_path w)))
    = Embed user_query :: t.
Proof.
  rewrite ingest_and_search_run. cbn [trace].
  set (w1 := final (process_directory X directory_path w)).
  assert (H : exists t,
            trace (search_in_pinecone X user_query w1) = Embed user_query :: t).
  { rewrite search_in_pinecone_run.
    destruct (embed X user_query w1) as [[[|x v]|e] w2];
      try (eexists; reflexivity).
    destruct (pc_Index X (index_name X) w2) as [[[]|e] w3];
      try (eexists; reflexivity).
    destruct (index_query X (x :: v) 4 true w3) as [[ms|e] w4];
      eexists; reflexivity. }
  destruct H as [t Ht]. exists t. rewrite Ht. split; reflexivity.
Qed.

(** X17: the script exits only at provisioning.  When the script ends with
    an exit status, the status is 1 and the script did what [provision]
    did and nothing else; after provisioning the script can return or
    raise, but not exit. *)
Theorem script_exit_only_at_provisioning {float World : Type}
    (X : externals float World) (w : World) (s : Z) :
  result (script X w) = Exit s ->
  s = 1 /\ script X w = provision X w.
Proof.
  intros H. unfold script in *.
  destruct (bind_exit _ _ _ _ H) as [Hp | [[] [Hp Hrest]]].
  - destruct (provision_result X w) as [Hr | Hr]; rewrite Hr in Hp;
      [discriminate|].
    injection Hp as <-. split; [reflexivity|].
    unfold bind at 1. rewrite Hr.
    destruct (provision X w) as [t w1 r]. cbn [trace final result] in *.
    rewrite Hr. reflexivity.
  - exfalso. destruct (bind_exit _ _ _ _ Hrest) as [Hl | [[] [_ Hi]]].
    + exact (load_no_exit X _ s Hl).
    + rewrite ingest_and_search_run in Hi. cbn [result] in Hi.
      exact (search_in_pinecone_no_exit X _ _ s Hi).
Qed.

Lemma script_exit_only_at_provisioning_witness :
  1 = 1 /\
  script (Demo.ext Demo.kb Demo.codes) Demo.w_down
  = provision (Demo.ext Demo.kb Demo.codes) Demo.w_down.
Proof.
  apply (script_exit_only_at_provisioning (Demo.ext Demo.kb Demo.codes)
           Demo.w_down 1).
  reflexivity.
Defined.

(* ================================================================== *)
(** ** The directory walker: what is skipped and what is processed *)

Section Walker.

Context {float World : Type}.
Variable X : externals float World.

(** A text file that is read and whose text is processed without an
    exception: lines 105-109. *)
Lemma process_entry_processed dir file w data w1 :
  is_txt X dir file = true ->
  open_read X (os_path_join X dir file) w = (Ok data, w1) ->
  result (process_text X data file w1) = Ret tt ->
  process_entry X dir file w
  = mk_run (OpenRead (os_path_join X dir file)
            :: Print (lit "Processing file: " ++ file)
            :: trace (process_text X data file w1))
           (final (process_text X data file w1)) (Ret tt).
Proof.
  intros Htxt H Hr. unfold is_txt in Htxt. unfold process_entry.
  rewrite Htxt. unfold try_except.
  rewrite bind_call, H. cbn [trace final result].
  rewrite bind_print. cbn [trace final result]. rewrite Hr. reflexivity.
Qed.

(** A loop over text files that can all be read, with an embedder that
    does not fail: every file's text is chunked and every chunk embedded,
    file after file; with an index handle that does not fail either, every
    chunk is sent to the store under the file's name and its position. *)
Lemma txt_entries_processed dir (content : str -> str) (l : list str) w :
  (forall f, In f l ->
     is_txt X dir f = true /\
     forall w1, exists w2,
       open_read X (os_path_join X dir f) w1 = (Ok (content f), w2)) ->
  (forall s w1, exists e w2, embed X s w1 = (Ok e, w2)) ->
  embedded (trace (for_each l (process_entry X dir) w))
  = flat_map (fun f => chunk_text (content f) default_chunk_size) l /\
  ((forall w1, exists w2, pc_Index X (index_name X) w1 = (Ok tt, w2)) ->
   map (fun v => (id v, metadata_text v))
       (upserted (trace (for_each l (process_entry X dir) w)))
   = flat_map
       (fun f =>
          map (fun ic => (f ++ lit "-chunk-" ++ of_nat (fst ic + 1)%nat, snd ic))
              (enumerate (chunk_text (content f) default_chunk_size))) l).
Proof.
  intros Hl Hemb. revert w. induction l as [|f l IH]; intros w.
  - split; [reflexivity | intros _; reflexivity].
  - destruct (Hl f (or_introl eq_refl)) as [Htxt Hread].
    destruct (Hread w) as [w2 Ho].
    assert (Hl' : forall g, In g l ->
              is_txt X dir g = true /\
              forall w1, exists w3,
                open_read X (os_path_join X dir g) w1 = (Ok (content g), w3))
      by (intros g Hg; apply Hl; right; exact Hg).
    destruct (embed_and_store_complete X f
                (enumerate (chunk_text (content f) default_chunk_size)) w2 Hemb)
      as [Hr He].
    assert (Hrun := process_entry_processed dir f w (content f) w2 Htxt Ho Hr).
    assert (Hret : result (process_entry X dir f w) = Ret tt)
      by (rewrite Hrun; reflexivity).
    cbn [for_each flat_map]. rewrite (bind_ret _ _ w tt Hret). cbn [trace].
    rewrite embedded_app, upserted_app, map_app, Hrun. cbn [trace final].
    change (embedded (OpenRead ?p :: Print ?m :: ?t)) with (embedded t).
    change (upserted (OpenRead ?p :: Print ?m :: ?t)) with (upserted t).
    destruct (IH Hl' (final (process_text X (content f) f w2))) as [IH1 IH2].
    split.
    + rewrite IH1. f_equal. unfold process_text. rewrite He.
      unfold enumerate. apply map_snd_combine, length_seq.
    + intros Hidx. rewrite (IH2 Hidx). f_equal. unfold process_text.
      apply (embed_and_store_loop X (fun _ => True)); [|exact Hidx].
      intros s w1. destruct (Hemb s w1) as [e [w3 E]]. exists e, w3. tauto.
Qed.

End Walker.

(** C8: an entry whose suffix is not ".txt" has no effect at all: nothing
    is opened, nothing printed, nothing raised, and the loop over the
    entries runs as if the entry were not listed.  The files opened are
    those of the entries with the suffix ".txt", each once, in the order of
    the listing.  An entry with the suffix ".txt" is read and processed:
    once its file is read it is announced with "Processing file: ..." and
    its text goes through [process_text] under the entry's name; so, when
    the text files can be read and the embedder does not fail, the chunks
    embedded during [process_directory] are the chunks of the ".txt"
    entries' texts, file after file in the order of the listing, and, when
    the index handle does not fail either, each of these chunks is sent to
    the store under the id "{file}-chunk-{i}" of its 1-based position. *)
Theorem process_directory_skips {float World : Type}
    (X : externals float World) (dir : str) :
  (forall file w,
     path_suffix X (os_path_join X dir file) <> lit ".txt" ->
     process_entry X dir file w = mk_run [] w (Ret tt)) /\
  (forall files w,
     for_each files (process_entry X dir) w
     = for_each (filter (is_txt X dir) files) (process_entry X dir) w) /\
  (forall w,
     opened (trace (process_directory X dir w))
     = match os_listdir X dir w with
       | (Ok files, _) =>
           map (os_path_join X dir) (filter (is_txt X dir) files)
       | (Err _, _) => []
       end) /\
  (forall file,
     is_txt X dir file = true
     <-> path_suffix X (os_path_join X dir file) = lit ".txt") /\
  (forall file w data w1,
     path_suffix X (os_path_join X dir file) = lit ".txt" ->
     open_read X (os_path_join X dir file) w = (Ok data, w1) ->
     result (process_text X data file w1) = Ret tt ->
     process_entry X dir file w
     = mk_run (OpenRead (os_path_join X dir file)
               :: Print (lit "Processing file: " ++ file)
               :: trace (process_text X data file w1))
              (final (process_text X data file w1)) (Ret tt)) /\
  (forall w files w0 (content : str -> str),
     os_listdir X dir w = (Ok files, w0) ->
     (forall f, In f files -> is_txt X dir f = true ->
        forall w1, exists w2,
          open_read X (os_path_join X dir f) w1 = (Ok (content f), w2)) ->
     (forall s w1, exists e w2, embed X s w1 = (Ok e, w2)) ->
     embedded (trace (process_directory X dir w))
     = flat_map (fun f => chunk_text (content f) default_chunk_size)
         (filter (is_txt X dir) files) /\
     ((forall w1, exists w2, pc_Index X (index_name X) w1 = (Ok tt, w2)) ->
      map (fun v => (id v, metadata_text v))
          (upserted (trace (process_directory X dir w)))
      = flat_map
          (fun f =>
             map (fun ic =>
                    (f ++ lit "-chunk-" ++ of_nat (fst ic + 1)%nat, snd ic))
                 (enumerate (chunk_text (content f) default_chunk_size)))
          (filter (is_txt X dir) files))).
Proof.
  split; [|split; [|split; [|split; [|split]]]].
  - intros file w Hsuf. unfold process_entry.
    destruct (eqb _ (lit ".txt")) eqn:E; [|reflexivity].
    apply eqb_eq in E. contradiction.
  - intros files w. apply (process_entries X dir files w).
  - intros w. unfold process_directory, try_except, bind, call, print.
    destruct (os_listdir X dir w) as [[files|e] w1]; cbn [trace final result];
      [|reflexivity].
    destruct (process_entries X dir files w1) as [Hr [Ho _]].
    rewrite Hr. cbn [trace final result app opened flat_map].
    exact Ho.
  - intros file. apply eqb_eq.
  - intros file w data w1 Hsuf Ho Hr.
    apply (process_entry_processed X dir file w data w1); try assumption.
    apply eqb_eq. exact Hsuf.
  - intros w files w0 content Hlist Hread Hemb.
    assert (E : trace (process_directory X dir w)
                = Listdir dir
                  :: trace (for_each (filter (is_txt X dir) files)
                              (process_entry X dir) w0)).
    { unfold process_directory, try_except. rewrite bind_call, Hlist.
      destruct (process_entries X dir files w0) as [Hr [_ Heq]].
      cbn [trace final result]. rewrite Hr, Heq. reflexivity. }
    rewrite E.
    change (embedded (Listdir dir :: ?t)) with (embedded t).
    change (upserted (Listdir dir :: ?t)) with (upserted t).
    apply (txt_entries_processed X dir content); [|exact Hemb].
    intros f Hf. apply filter_In in Hf as [Hin Htxt].
    split; [exact Htxt | exact (Hread f Hin Htxt)].
Qed.

Lemma process_directory_skips_witness :
  process_entry (Demo.ext Demo.kb Demo.codes) (lit "./documents")
    (lit "paper.pdf") Demo.w0
  = mk_run [] Demo.w0 (Ret tt)
  /\
  process_entry (Demo.ext Demo.kb Demo.codes) (lit "./documents")
    (lit "notes.txt") Demo.w0
  = mk_run (OpenRead (lit "./documents/notes.txt")
            :: Print (lit "Processing file: " ++ lit "notes.txt")
            :: trace (process_text (Demo.ext Demo.kb Demo.codes)
                        (lit "alpha beta") (lit "notes.txt") Demo.w0))
           (final (process_text (Demo.ext Demo.kb Demo.codes)
                     (lit "alpha beta") (lit "notes.txt") Demo.w0))
           (Ret tt)
  /\
  embedded (trace (process_directory Demo.readable (lit "./documents") Demo.w0))
  = flat_map (fun f => chunk_text (Demo.content f) default_chunk_size)
      (filter (is_txt Demo.readable (lit "./documents"))
         (map fst Demo.docs))
  /\
  map (fun v => (id v, metadata_text v))
      (upserted (trace (process_directory Demo.readable (lit "./documents")
                          Demo.w0)))
  = flat_map
      (fun f =>
         map (fun ic => (f ++ lit "-chunk-" ++ of_nat (fst ic + 1)%nat, snd ic))
             (enumerate (chunk_text (Demo.content f) default_chunk_size)))
      (filter (is_txt Demo.readable (lit "./documents")) (map fst Demo.docs)).
Proof.
  destruct (process_directory_skips (Demo.ext Demo.kb Demo.codes)
              (lit "./documents")) as [Hskip [_ [_ [_ [Hproc _]]]]].
  destruct (process_directory_skips Demo.readable (lit "./documents"))
    as [_ [_ [_ [_ [_ Hdir]]]]].
  split; [|split].
  - apply Hskip. vm_compute. discriminate.
  - apply (Hproc (lit "notes.txt") Demo.w0 (lit "alpha beta") Demo.w0);
      reflexivity.
  - destruct (Hdir Demo.w0 (map fst Demo.docs) Demo.w0 Demo.content)
      as [He Hu].
    + reflexivity.
    + intros f Hf Htxt w1. exists w1.
      destruct Hf as [<- | [<- | [<- | []]]]; try discriminate Htxt.
      reflexivity.
    + intros s w1. exists (Demo.codes s), w1. reflexivity.
    + split; [exact He|]. apply Hu. intros w1. exists w1. reflexivity.
Defined.

(** In the small world, the directory holds a text file, a PDF and a file
    without suffix: only the text file is opened, and its one chunk is
    embedded and stored as "notes.txt-chunk-1". *)
Example process_directory_demo :
  opened (trace (process_directory (Demo.ext Demo.kb Demo.codes)
                   (lit "./documents") Demo.w0))
  = [lit "./documents/notes.txt"] /\
  embedded (trace (process_directory (Demo.ext Demo.kb Demo.codes)
                     (lit "./documents") Demo.w0))
  = [lit "alpha beta"] /\
  map (fun v => (id v, metadata_text v))
      (upserted (trace (process_directory (Demo.ext Demo.kb Demo.codes)
                          (lit "./documents") Demo.w0)))
  = [(lit "notes.txt-chunk-1", lit "alpha beta")].
Proof. repeat split. Qed.

(** A piece between single spaces may hold several runs of characters
    separated by line breaks: under the limit 3, the text of three
    two-letter runs on three lines is one piece of 8 characters, emitted as
    one chunk after the empty first chunk. *)
Example chunk_text_lines :
  chunk_text (lit "ab" ++ [10%N] ++ lit "cd" ++ [10%N] ++ lit "ef") 3
  = [[]; lit "ab" ++ [10%N] ++ lit "cd" ++ [10%N] ++ lit "ef"].
Proof. reflexivity. Qed.
